(** * gopeek: a shallow embedding of the goroutine condition engine

    The development follows [gopeek.go]: the state classifier [NewState],
    the [Condition] builder with its unit and set filters, the snapshot
    capture loop and filter loop of [Condition.Eval], and the polling loop
    of [Condition.Wait].  The Go runtime ([runtime.Stack], [time.Now],
    [runtime.Gosched]), the dump parser ([stack.ParseDump]) and the regexp
    package are collaborators of the package; they are abstracted as type
    classes and instantiated only in closed examples. *)

From Stdlib Require Import ZArith Lia Bool Ascii String List Permutation.
From stdpp Require Import base tactics list.
Import ListNotations.

Local Open Scope string_scope.

(** ** Canonical states *)

(** [type State int] with the [iota] constants. *)
Inductive State : Set :=
| StateIdle
| StateRunnable
| StateRunning
| StateSysCall
| StateWaiting
| StateDead
| StateEnqueue
| StateCopyStack
| StateSleeping
| StateWaitingChannel
| StateWaitingSelect
| StateWaitingGCActivity
| StateWaitingIO
| StateWaitingLock
| StateOther.

(** The integer behind each constant ([iota] counts from zero). *)
Definition State_int (s : State) : Z :=
  match s with
  | StateIdle => 0 | StateRunnable => 1 | StateRunning => 2
  | StateSysCall => 3 | StateWaiting => 4 | StateDead => 5
  | StateEnqueue => 6 | StateCopyStack => 7 | StateSleeping => 8
  | StateWaitingChannel => 9 | StateWaitingSelect => 10
  | StateWaitingGCActivity => 11 | StateWaitingIO => 12
  | StateWaitingLock => 13 | StateOther => 14
  end%Z.

(** [state == cur] on [State] is equality of the underlying integers. *)
Definition State_eqb (a b : State) : bool := (State_int a =? State_int b)%Z.

(** The wait-reason constants. *)
Definition strIdle : string := "idle".
Definition strRunnable : string := "runnable".
Definition strRunning : string := "running".
Definition strSysCall : string := "syscall".
Definition strWaiting : string := "waiting".
Definition strDead : string := "dead".
Definition strEnqueue : string := "enqueue".
Definition strCopyStack : string := "copystack".
Definition strSleeping : string := "sleep".
Definition strWaitingChannel : string := "chan".
Definition strWaitingSelect : string := "select".
Definition strWaitingGCActivity1 : string := "gc ".
Definition strWaitingGCActivity2 : string := "garbage".
Definition strWaitingIO : string := "IO wait".
Definition strWaitingLock : string := "sem".

(** ** The pieces of package [strings] that [NewState] calls

    A Go string is a byte sequence; [string] is a sequence of 8-bit
    [ascii] values, so the two coincide. *)

(** [strings.HasPrefix(s, prefix)]. *)
Definition HasPrefix (s pre : string) : bool := String.prefix pre s.

(** [strings.Contains(s, substr)]: [substr] starts at some offset of [s]. *)
Fixpoint Contains (s substr : string) : bool :=
  String.prefix substr s
  || match s with
     | EmptyString => false
     | String _ s' => Contains s' substr
     end.

(** Lower-casing of one byte: only ['A'..'Z'] move. *)
Definition lowerByte (c : ascii) : ascii :=
  let n := nat_of_ascii c in
  if (65 <=? n)%nat && (n <=? 90)%nat then ascii_of_nat (n + 32) else c.

(** [strings.ToLower].  Go lower-cases rune by rune; on the 7-bit bytes it
    is [lowerByte].  A rune outside ASCII lower-cases either to a rune
    outside ASCII or to [k] or [i] (U+212A, U+0130), none of which occurs
    in the two patterns [NewState] searches the result for, and every
    input rune yields exactly one output rune, so for the two tests made
    on the result the byte-wise map decides as Go does. *)
Fixpoint ToLower (s : string) : string :=
  match s with
  | EmptyString => EmptyString
  | String c s' => String (lowerByte c) (ToLower s')
  end.

(** ** The state classifier *)

(** [func NewState(state string) State]: the [switch] compares [state]
    with each case constant in turn; the [default] branch runs the chain
    of prefix tests, and falling out of the switch returns [StateOther]. *)
Definition NewState (state : string) : State :=
  if String.eqb state strIdle then StateIdle
  else if String.eqb state strRunnable then StateRunnable
  else if String.eqb state strRunning then StateRunning
  else if String.eqb state strSysCall then StateSysCall
  else if String.eqb state strWaiting then StateWaiting
  else if String.eqb state strDead then StateDead
  else if String.eqb state strEnqueue then StateEnqueue
  else if String.eqb state strCopyStack then StateCopyStack
  else if String.eqb state strSleeping then StateSleeping
  else if String.eqb state strWaitingIO then StateWaitingIO
  else if HasPrefix state strWaitingLock then StateWaitingLock
  else if HasPrefix state strWaitingChannel then StateWaitingChannel
  else if HasPrefix state strWaitingSelect then StateWaitingSelect
  else
    let str := ToLower state in
    if HasPrefix str strWaitingGCActivity2
       || Contains str strWaitingGCActivity1
    then StateWaitingGCActivity
    else StateOther.

(** The classifier as the specification words it: an exact table, then a
    prefix table, then the case-insensitive rule, then [StateOther].
    This definition follows the prose and is compared with [NewState]. *)
Module ClassifierSpec.

Definition exact_table : list (string * State) :=
  [ ("idle", StateIdle); ("runnable", StateRunnable);
    ("running", StateRunning); ("syscall", StateSysCall);
    ("waiting", StateWaiting); ("dead", StateDead);
    ("enqueue", StateEnqueue); ("copystack", StateCopyStack);
    ("sleep", StateSleeping); ("IO wait", StateWaitingIO) ].

Definition prefix_table : list (string * State) :=
  [ ("sem", StateWaitingLock); ("chan", StateWaitingChannel);
    ("select", StateWaitingSelect) ].

(** First entry of a table whose key satisfies [test]. *)
Fixpoint first_match (test : string -> bool)
         (table : list (string * State)) : option State :=
  match table with
  | [] => None
  | (k, st) :: rest => if test k then Some st else first_match test rest
  end.

Definition gc_rule (reason : string) : bool :=
  let low := ToLower reason in
  String.prefix "garbage" low || Contains low "gc ".

Definition classify (reason : string) : State :=
  match first_match (String.eqb reason) exact_table with
  | Some st => st
  | None =>
    match first_match (fun k => String.prefix k reason) prefix_table with
    | Some st => st
    | None => if gc_rule reason then StateWaitingGCActivity else StateOther
    end
  end.

(** The corpus of known reason strings with the state each one is
    documented to have. *)
Definition corpus : list (string * State) :=
  [ ("idle", StateIdle); ("runnable", StateRunnable);
    ("running", StateRunning); ("syscall", StateSysCall);
    ("waiting", StateWaiting); ("dead", StateDead);
    ("enqueue", StateEnqueue); ("copystack", StateCopyStack);
    ("sleep", StateSleeping);
    ("chan send", StateWaitingChannel);
    ("chan receive", StateWaitingChannel);
    ("select", StateWaitingSelect);
    ("select (no cases)", StateWaitingSelect);
    ("IO wait", StateWaitingIO);
    ("semacquire", StateWaitingLock);
    ("semrelease", StateWaitingLock);
    ("semarelease", StateWaitingLock);
    ("GC sweep wait", StateWaitingGCActivity);
    ("GC assist wait", StateWaitingGCActivity);
    ("force gc (idle)", StateWaitingGCActivity);
    ("GC assist marking", StateWaitingGCActivity);
    ("garbage collection scan", StateWaitingGCActivity);
    ("garbage collection", StateWaitingGCActivity);
    ("panicwait", StateOther);
    ("stack growth", StateOther);
    ("dumping heap", StateOther);
    ("trace reader (blocked)", StateOther);
    ("finalizer wait", StateOther);
    ("timer goroutine (idle)", StateOther) ].

End ClassifierSpec.

(** ** Goroutine records

    [stack.Goroutine] of the panicparse library, with the fields the
    package reads: the identifier, the wait reason [State] of the embedded
    [Signature], and [Signature.CreatedBy.Func.PkgDotName()].  The stack
    frames are never inspected by the package and are left out. *)
Record Goroutine : Type := mkGoroutine {
  ID : Z;
  Signature_State : string;
  Signature_CreatedBy_PkgDotName : string;
  Signature_Locked : bool;
  First : bool
}.

(** ** Errors and panics *)

(** The errors [Eval] and [Wait] can return: the package's own
    [ErrTimeout] value, or whatever [stack.ParseDump] reported (a value of
    another package, hence never equal to [ErrTimeout]). *)
Inductive error : Type :=
| ErrTimeout
| ErrParseDump (msg : string).

(** A call that may panic ([make] with a negative size,
    [regexp.MustCompile] on a malformed pattern). *)
Inductive panics (A : Type) : Type :=
| Returns (a : A)
| Panic (msg : string).
Arguments Returns {A} a.
Arguments Panic {A} msg.

Definition panics_bind {A B} (m : panics A) (k : A -> panics B) : panics B :=
  match m with
  | Returns a => k a
  | Panic msg => Panic msg
  end.

Notation "'call' x <- m ; k" := (panics_bind m (fun x => k))
  (at level 10, x name, m at level 100, k at level 200).

(** ** Filters and conditions *)

(** An element of [filters []interface{}]: the two dynamic types the
    type switch of [Eval] distinguishes.  A filter is taken to be a pure
    function of its argument, as all built-in filters are. *)
Inductive filter : Type :=
| FilterByGo (f : Goroutine -> bool)
| FilterByGoes (f : list Goroutine -> bool).

(** [Condition]: the filter slice (its elements and its capacity) and the
    snapshot buffer.  Only the length of [buf] is kept: its bytes are
    overwritten by every [runtime.Stack] call before they are read. *)
Record Condition : Type := mkCondition {
  filters : list filter;
  filters_cap : nat;
  buf : nat
}.

Definition defaultFilterSize : Z := 10.
Definition defaultBufSize : Z := 2 ^ 20.

(** ** Collaborators

    What the package obtains from the Go runtime and from panicparse.
    [World] is the state of the process as the runtime sees it.
    - [runtime_Stack w len] is [runtime.Stack(buf, true)] on a buffer of
      [len] bytes: the bytes written (their number is the [n] returned)
      and the world afterwards;
    - [stack_ParseDump] is [stack.ParseDump] on a reader over the bytes;
    - [time_Now] reads the clock, in nanoseconds;
    - [runtime_Gosched] lets the other goroutines run;
    - [growslice] is the capacity [append] picks when a slice of a given
      capacity must hold a given number of elements. *)
Class Runtime (World : Type) : Type := {
  runtime_Stack : World -> nat -> string * World;
  runtime_Stack_le :
    forall w len, String.length (fst (runtime_Stack w len)) <= len;
  stack_ParseDump : string -> list Goroutine * option string;
  time_Now : World -> Z * World;
  runtime_Gosched : World -> World;
  growslice : nat -> nat -> nat
}.

(** Package [regexp]: [regexp_Compile] fails on a malformed pattern. *)
Class RegexpEngine (Regexp : Type) : Type := {
  regexp_Compile : string -> option Regexp;
  Regexp_Match : Regexp -> string -> bool
}.

(** [regexp.MustCompile]. *)
Definition regexp_MustCompile `{RegexpEngine Regexp} (str : string)
  : panics Regexp :=
  match regexp_Compile str with
  | Some re => Returns re
  | None => Panic ("regexp: Compile(" ++ str ++ "): error")
  end.

(** [make([]T, ...)] panics on a negative size. *)
Definition make_len (n : Z) : panics nat :=
  if (n <? 0)%Z then Panic "makeslice: len out of range"
  else Returns (Z.to_nat n).

Definition make_cap (n : Z) : panics nat :=
  if (n <? 0)%Z then Panic "makeslice: cap out of range"
  else Returns (Z.to_nat n).

(** [func NewConditionWithConfig(filterSize int, bufSize int) *Condition]. *)
Definition NewConditionWithConfig (filterSize bufSize : Z)
  : panics Condition :=
  call fcap <- make_cap filterSize ;
  call blen <- make_len bufSize ;
  Returns {| filters := []; filters_cap := fcap; buf := blen |}.

(** The first version's [NewCondition()]. *)
Definition NewCondition_default : panics Condition :=
  NewConditionWithConfig defaultFilterSize defaultBufSize.

(** The [&Condition{}] the option-based constructor starts from: each
    slice is [nil] ([None]) or was made with the given capacity or
    length. *)
Record Condition0 : Type := mkCondition0 {
  filters0 : option nat;
  buf0 : option nat
}.

(** [type Option]: a function applied to the condition under
    construction. *)
Definition Option : Type := Condition0 -> panics Condition0.

Definition WithFilterSize (fs : Z) : Option :=
  fun c => call fcap <- make_cap fs ;
           Returns {| filters0 := Some fcap; buf0 := buf0 c |}.

Definition WithBufSize (bs : Z) : Option :=
  fun c => call blen <- make_len bs ;
           Returns {| filters0 := filters0 c; buf0 := Some blen |}.

Fixpoint apply_opts (opts : list Option) (c : Condition0)
  : panics Condition0 :=
  match opts with
  | [] => Returns c
  | opt :: rest => call c' <- opt c ; apply_opts rest c'
  end.

(** [func NewCondition(opts ...Option) *Condition]: a slice an option made
    is kept even when it is empty; only a [nil] one gets the default. *)
Definition NewCondition (opts : list Option) : panics Condition :=
  call c <- apply_opts opts {| filters0 := None; buf0 := None |} ;
  Returns {| filters := [];
             filters_cap := match filters0 c with
                            | Some n => n
                            | None => Z.to_nat defaultFilterSize
                            end;
             buf := match buf0 c with
                    | Some n => n
                    | None => Z.to_nat defaultBufSize
                    end |}.

Section Builder.
Context {World : Type} `{Runtime World}.

(** [c.filters = append(c.filters, f)]. *)
Definition append_filter (c : Condition) (f : filter) : Condition :=
  {| filters := filters c ++ [f];
     filters_cap :=
       if (length (filters c) <? filters_cap c)%nat then filters_cap c
       else growslice (filters_cap c) (S (length (filters c)));
     buf := buf c |}.

Definition Condition_FilterByGo (c : Condition) (f : Goroutine -> bool)
  : Condition := append_filter c (FilterByGo f).

Definition Condition_FilterByGoes (c : Condition)
           (f : list Goroutine -> bool) : Condition :=
  append_filter c (FilterByGoes f).

(** [len(gs) > v], [len(gs) < v], [len(gs) == v] with [v] an [int]. *)
Definition Condition_GT (c : Condition) (v : Z) : Condition :=
  append_filter c (FilterByGoes (fun gs => (Z.of_nat (length gs) >? v)%Z)).

Definition Condition_LT (c : Condition) (v : Z) : Condition :=
  append_filter c (FilterByGoes (fun gs => (Z.of_nat (length gs) <? v)%Z)).

Definition Condition_EQ (c : Condition) (v : Z) : Condition :=
  append_filter c (FilterByGoes (fun gs => (Z.of_nat (length gs) =? v)%Z)).

Definition Condition_Is (c : Condition) (state : State) : Condition :=
  append_filter c
    (FilterByGo (fun g =>
       let cur := NewState (Signature_State g) in State_eqb state cur)).

Definition Condition_Not (c : Condition) (state : State) : Condition :=
  append_filter c
    (FilterByGo (fun g =>
       let cur := NewState (Signature_State g) in
       negb (State_eqb state cur))).

(** The loop of [In]: true at the first [s] equal to [cur]. *)
Fixpoint state_in (cur : State) (states : list State) : bool :=
  match states with
  | [] => false
  | s :: rest => if State_eqb cur s then true else state_in cur rest
  end.

Definition Condition_In (c : Condition) (states : list State)
  : Condition :=
  append_filter c
    (FilterByGo (fun g =>
       let cur := NewState (Signature_State g) in state_in cur states)).

(** [CreatedBy]: the pattern is compiled first, and a panic there
    leaves no condition to evaluate. *)
Definition Condition_CreatedBy `{RegexpEngine Regexp}
           (c : Condition) (fun_ : string) : panics Condition :=
  call re <- regexp_MustCompile fun_ ;
  Returns (append_filter c
             (FilterByGo (fun g =>
                Regexp_Match re (Signature_CreatedBy_PkgDotName g)))).
End Builder.

(** ** Evaluation *)

Section Engine.
Context {World : Type} `{Runtime World}.

(** The capture loop at the head of [Eval]:
    [for { n = runtime.Stack(c.buf, true);
           if n == len(c.buf) { c.buf = make([]byte, n*2); continue };
           break }].
    [len] is [len(c.buf)].  The result is [c.buf[:n]], the length of the
    buffer the loop ended with, and the world.  The loop need not end, so
    it runs on [fuel]: one unit per call of [runtime.Stack].  Lengths are
    unbounded naturals: a buffer of 2^62 bytes, where [n*2] would wrap,
    cannot be allocated. *)
Fixpoint capture (fuel : nat) (len : nat) (w : World)
  : option (string * nat * World) :=
  match fuel with
  | O => None
  | S fuel' =>
    let '(out, w') := runtime_Stack w len in
    let n := String.length out in
    if (n =? len)%nat then capture fuel' (n * 2) w'
    else Some (out, len, w')
  end.

(** One turn of the filter loop of [Eval] on the candidate slice [gs]:
    [None] is the early [return nil, nil], [Some gs'] carries the
    candidates into the next turn.  The Go code filters into the reused
    slice [ngs]; what it leaves there is [List.filter f gs]
    (see [SliceReuse] below). *)
Definition applyFilter (f : filter) (gs : list Goroutine)
  : option (list Goroutine) :=
  match f with
  | FilterByGo p =>
    let ngs := List.filter p gs in
    if (length ngs =? 0)%nat then None else Some ngs
  | FilterByGoes p =>
    if negb (p gs) then None else Some gs
  end.

(** [for _, f := range c.filters { ... }]. *)
Fixpoint applyFilters (fs : list filter) (gs : list Goroutine)
  : option (list Goroutine) :=
  match fs with
  | [] => Some gs
  | f :: fs' =>
    match applyFilter f gs with
    | None => None
    | Some gs' => applyFilters fs' gs'
    end
  end.

(** What [Eval] and [Wait] return: the goroutine slice ([nil] and the
    empty slice are both [[]]) and the error ([None] is [nil]). *)
Definition result : Type := list Goroutine * option error.

(** [func (c *Condition) Eval() ([]stack.Goroutine, error)], together
    with the condition (its buffer may have grown) and the world after
    the call.  [None]: the capture loop did not end within [fuel]. *)
Definition Condition_Eval (fuel : nat) (c : Condition) (w : World)
  : option (result * Condition * World) :=
  match capture fuel (buf c) w with
  | None => None
  | Some (out, len', w') =>
    let c' := {| filters := filters c;
                 filters_cap := filters_cap c;
                 buf := len' |} in
    let '(gs, err) := stack_ParseDump out in
    match err with
    | Some e => Some (([], Some (ErrParseDump e)), c', w')
    | None =>
      match applyFilters (filters c) gs with
      | None => Some (([], None), c', w')
      | Some gs' => Some ((gs', None), c', w')
      end
    end
  end.

(** The result [Eval] computes from the text of a captured dump: the
    part of [Eval] after the capture loop. *)
Definition eval_dump (fs : list filter) (text : string) : result :=
  let '(gs, err) := stack_ParseDump text in
  match err with
  | Some e => ([], Some (ErrParseDump e))
  | None =>
    match applyFilters fs gs with
    | None => ([], None)
    | Some gs' => (gs', None)
    end
  end.

(** One turn of the loop of [Wait]: it ends with a result, or goes
    round again after [runtime.Gosched()]. *)
Inductive turn : Type :=
| Done (r : result) (c : Condition) (w : World)
| Again (c : Condition) (w : World).

(** The body of the loop after its [Eval] returned [r].  [start] is
    the clock reading taken on entry of [Wait]; [time.Now()] is read
    only when [timeout > 0] (the conjunction is short-circuit), and
    [Sub] is the difference of the two readings in nanoseconds. *)
Definition Wait_check (start timeout : Z) (r : result)
           (c' : Condition) (w' : World) : turn :=
  match r with
  | (_, Some e) => Done ([], Some e) c' w'
  | (gs, None) =>
    if (0 <? length gs)%nat then Done (gs, None) c' w'
    else if (timeout >? 0)%Z then
      let '(now, w'') := time_Now w' in
      if (now - start >? timeout)%Z
      then Done ([], Some ErrTimeout) c' w''
      else Again c' (runtime_Gosched w'')
    else Again c' (runtime_Gosched w')
  end.

(** The body of the loop. *)
Definition Wait_turn (efuel : nat) (start timeout : Z)
           (c : Condition) (w : World) : option turn :=
  match Condition_Eval efuel c w with
  | None => None
  | Some (r, c', w') => Some (Wait_check start timeout r c' w')
  end.

(** The loop of [Wait], [fuel] turns at most; every [Eval] in it gets
    [efuel]. *)
Fixpoint Wait_loop (efuel fuel : nat) (start timeout : Z)
         (c : Condition) (w : World)
  : option (result * Condition * World) :=
  match fuel with
  | O => None
  | S fuel' =>
    match Wait_turn efuel start timeout c w with
    | None => None
    | Some (Done r c' w') => Some (r, c', w')
    | Some (Again c' w') => Wait_loop efuel fuel' start timeout c' w'
    end
  end.

(** [func (c *Condition) Wait(timeout time.Duration)
     ([]stack.Goroutine, error)]. *)
Definition Condition_Wait (fuel : nat) (c : Condition) (timeout : Z)
           (w : World) : option (result * Condition * World) :=
  let '(start, w0) := time_Now w in
  Wait_loop fuel fuel start timeout c w0.

(** The deadline seen from the world [w1] an [Eval] left: there is
    none ([timeout <= 0], the clock is not read), or the clock read in
    [w1] has not gone past it; [w2] is the world after the check. *)
Definition in_time (start timeout : Z) (w1 w2 : World) : Prop :=
  (timeout <= 0 /\ w2 = w1)%Z
  \/ (0 < timeout /\
      exists now, time_Now w1 = (now, w2) /\ now - start <= timeout)%Z.

(** The clock read in [w1] is more than a positive [timeout] past
    [start]. *)
Definition timed_out (start timeout : Z) (w1 w2 : World) : Prop :=
  (0 < timeout /\
   exists now, time_Now w1 = (now, w2) /\ timeout < now - start)%Z.

(** [polls start timeout k s s']: [k] unsuccessful attempts in a row
    lead from [s] to [s'].  Each is an [Eval] that returns the empty
    result and no error while the deadline has not passed, followed by
    [runtime.Gosched()]. *)
Inductive polls (start timeout : Z)
  : nat -> Condition * World -> Condition * World -> Prop :=
| polls_O s : polls start timeout 0 s s
| polls_S k efuel c w c1 w1 w2 s' :
    Condition_Eval efuel c w = Some (([], None), c1, w1) ->
    in_time start timeout w1 w2 ->
    polls start timeout k (c1, runtime_Gosched w2) s' ->
    polls start timeout (S k) (c, w) s'.

(** What a caller can observe of a call: the result and the world,
    not the buffer or the capacity the condition is left with. *)
Definition observe (r : option (result * Condition * World))
  : option (result * World) :=
  match r with
  | Some (res, _, w) => Some (res, w)
  | None => None
  end.

(** A runtime whose dump stands still while it is captured: every
    [runtime.Stack] call writes the same text [dump w], cut to the
    buffer, and leaves the world as it was. *)
Definition stable_dump (dump : World -> string) : Prop :=
  forall w len, runtime_Stack w len = (String.substring 0 len (dump w), w).
End Engine.

(** ** The reused slice of the filter loop

    [Eval] makes one array for [ngs], of capacity [len(gs)], and every
    unit filter appends to [ngs[:0]]: it writes that array from cell 0
    on, while it ranges over [gs], which from the second unit filter on
    is a prefix of the same array.  The loop is run here on the array
    itself, to be compared with [applyFilters]. *)
Module SliceReuse.

(** The slice [gs] ranged over: the parsed snapshot, in an array of its
    own, or the first [n] cells of the array behind [ngs]. *)
Inductive ranged : Type :=
| Parsed (gs : list Goroutine)
| Reused (n : nat).

(** [len(gs)], read once when the [range] starts. *)
Definition ranged_len (src : ranged) : nat :=
  match src with
  | Parsed gs => length gs
  | Reused n => n
  end.

(** [gs[i]] as turn [i] of the [range] reads it, from the array as it is
    at that turn. *)
Definition ranged_get (src : ranged) (arr : list Goroutine) (i : nat)
  : option Goroutine :=
  match src with
  | Parsed gs => gs !! i
  | Reused n => if (i <? n)%nat then arr !! i else None
  end.

(** The goroutines a slice holds. *)
Definition elements (src : ranged) (arr : list Goroutine)
  : list Goroutine :=
  match src with
  | Parsed gs => gs
  | Reused n => take n arr
  end.

(** The turns [i], [i + 1], ... of
    [for _, g := range gs { if f(&g) { ngs = append(ngs, g) } }]
    with [j = len(ngs)]: [append] stores [g] in cell [j] of the array,
    which has room for it. *)
Fixpoint range_from (p : Goroutine -> bool) (src : ranged)
         (todo i j : nat) (arr : list Goroutine) : nat * list Goroutine :=
  match todo with
  | O => (j, arr)
  | S todo' =>
    match ranged_get src arr i with
    | None => (j, arr)
    | Some g =>
      if p g then range_from p src todo' (S i) (S j) (<[j:=g]> arr)
      else range_from p src todo' (S i) j arr
    end
  end.

(** The filter loop on the array: [None] is the early return, [Some]
    the slice [gs] the loop ends with and the array. *)
Fixpoint run_filters (fs : list filter) (src : ranged)
         (arr : list Goroutine) : option (ranged * list Goroutine) :=
  match fs with
  | [] => Some (src, arr)
  | FilterByGo p :: fs' =>
    let '(j, arr') := range_from p src (ranged_len src) 0 0 arr in
    if (j =? 0)%nat then None else run_filters fs' (Reused j) arr'
  | FilterByGoes p :: fs' =>
    if negb (p (elements src arr)) then None else run_filters fs' src arr
  end.

End SliceReuse.

(** ** Vocabulary of the statements *)

(** A chain of builder calls adding the filters [fs] in order. *)
Definition build {World : Type} `{Runtime World}
           (c : Condition) (fs : list filter) : Condition :=
  fold_left append_filter fs c.

(** Both unit filters, or both set filters. *)
Definition same_kind (f g : filter) : bool :=
  match f, g with
  | FilterByGo _, FilterByGo _ => true
  | FilterByGoes _, FilterByGoes _ => true
  | _, _ => false
  end.

(** A reordering that only ever exchanges two neighbours of the same
    kind: no set filter moves across a unit filter. *)
Inductive reorder : list filter -> list filter -> Prop :=
| reorder_refl fs : reorder fs fs
| reorder_skip f fs fs' : reorder fs fs' -> reorder (f :: fs) (f :: fs')
| reorder_swap f g fs :
    same_kind f g = true -> reorder (f :: g :: fs) (g :: f :: fs)
| reorder_trans fs1 fs2 fs3 :
    reorder fs1 fs2 -> reorder fs2 fs3 -> reorder fs1 fs3.

(** [f] turns the candidates [gs] down: a unit filter no goroutine of
    [gs] passes, or a set filter false on [gs]. *)
Definition rejects (f : filter) (gs : list Goroutine) : bool :=
  match f with
  | FilterByGo p => (length (List.filter p gs) =? 0)%nat
  | FilterByGoes p => negb (p gs)
  end.

(** The goroutines of [gs] that pass every unit predicate of [ps]. *)
Definition all_pass (ps : list (Goroutine -> bool)) (gs : list Goroutine)
  : list Goroutine :=
  List.filter (fun g => forallb (fun p => p g) ps) gs.

(** [ceil (a / b)] on naturals, and with it [ceil (log2 (S / init))] as
    [Nat.log2_up (ceil_div S init)]: the least [k] with
    [S <= init * 2 ^ k]. *)
Definition ceil_div (a b : nat) : nat := (a + b - 1) / b.

Definition growth_rounds (S0 init : nat) : nat :=
  Nat.log2_up (ceil_div S0 init).

(** ** Further vocabulary *)

(** The unit predicates of a filter list, in the order they were added. *)
Fixpoint units (fs : list filter) : list (Goroutine -> bool) :=
  match fs with
  | [] => []
  | FilterByGo p :: fs' => p :: units fs'
  | FilterByGoes _ :: fs' => units fs'
  end.

(** The predicates that [Is], [Not] and [In] append, by name. *)
Definition state_is (state : State) : Goroutine -> bool :=
  fun g => let cur := NewState (Signature_State g) in State_eqb state cur.

Definition state_not (state : State) : Goroutine -> bool :=
  fun g =>
    let cur := NewState (Signature_State g) in negb (State_eqb state cur).

Definition state_among (states : list State) : Goroutine -> bool :=
  fun g => let cur := NewState (Signature_State g) in state_in cur states.

(** The count predicates that [GT], [LT] and [EQ] append, by name. *)
Definition count_gt (v : Z) : list Goroutine -> bool :=
  fun gs => (Z.of_nat (length gs) >? v)%Z.

Definition count_lt (v : Z) : list Goroutine -> bool :=
  fun gs => (Z.of_nat (length gs) <? v)%Z.

Definition count_eq (v : Z) : list Goroutine -> bool :=
  fun gs => (Z.of_nat (length gs) =? v)%Z.

(** The two options of the package, by name, to speak of every option
    list a caller can write. *)
Inductive option_desc : Type :=
| SetFilterSize (fs : Z)
| SetBufSize (bs : Z).

Definition option_of (d : option_desc) : Option :=
  match d with
  | SetFilterSize fs => WithFilterSize fs
  | SetBufSize bs => WithBufSize bs
  end.

Definition option_size (d : option_desc) : Z :=
  match d with
  | SetFilterSize fs => fs
  | SetBufSize bs => bs
  end.

(** The size the last [WithFilterSize] of a list gives, if there is one;
    likewise for [WithBufSize]. *)
Fixpoint last_filter_size (ds : list option_desc) : option Z :=
  match ds with
  | [] => None
  | d :: rest =>
    match last_filter_size rest, d with
    | Some z, _ => Some z
    | None, SetFilterSize z => Some z
    | None, SetBufSize _ => None
    end
  end.

Fixpoint last_buf_size (ds : list option_desc) : option Z :=
  match ds with
  | [] => None
  | d :: rest =>
    match last_buf_size rest, d with
    | Some z, _ => Some z
    | None, SetBufSize z => Some z
    | None, SetFilterSize _ => None
    end
  end.

(** The world the next attempt of [Wait] sees when the attempt before it
    left the world [w] to the deadline check: the clock is read, then
    [runtime.Gosched()] runs. *)
Definition next_attempt {World : Type} `{Runtime World} (w : World)
  : World := runtime_Gosched (snd (time_Now w)).

Fixpoint attempt_world {World : Type} `{Runtime World} (n : nat)
         (w : World) : World :=
  match n with
  | O => w
  | S n' => attempt_world n' (next_attempt w)
  end.

(** ** A small concrete runtime

    Used to run the definitions on closed inputs.  A dump has one byte per
    goroutine, naming its wait reason; the world holds a clock and the
    dumps the coming scheduling rounds will show. *)
Module Toy.

Record world : Type := mkWorld {
  clock : Z;
  tick : Z;
  dumps : list string
}.

Definition reason_of (c : ascii) : option string :=
  if Ascii.eqb c "r" then Some "running"
  else if Ascii.eqb c "s" then Some "semacquire"
  else if Ascii.eqb c "c" then Some "chan receive"
  else if Ascii.eqb c "z" then Some "sleep"
  else if Ascii.eqb c "i" then Some "IO wait"
  else None.

Fixpoint parse_from (id : Z) (s : string) : list Goroutine * option string :=
  match s with
  | EmptyString => ([], None)
  | String c s' =>
    match reason_of c with
    | None => ([], Some "unknown goroutine header")
    | Some r =>
      let '(gs, err) := parse_from (id + 1) s' in
      match err with
      | Some e => ([], Some e)
      | None =>
        ({| ID := id; Signature_State := r;
            Signature_CreatedBy_PkgDotName := "testing.tRunner";
            Signature_Locked := false;
            First := (id =? 1)%Z |} :: gs, None)
      end
    end
  end.

Definition dump (w : world) : string := hd "" (dumps w).

#[global] Instance runtime : Runtime world.
Proof.
  refine {|
    runtime_Stack w len := (String.substring 0 len (dump w), w);
    stack_ParseDump := parse_from 1;
    time_Now w := (clock w, w);
    runtime_Gosched w :=
      {| clock := clock w + tick w; tick := tick w;
         dumps := tl (dumps w) |};
    growslice old need := Nat.max need (2 * old)
  |}.
  intros w len; simpl. generalize (dump w); clear w.
  induction len as [|len IH]; intros [|c s]; simpl; auto with arith.
Defined.

(** A process whose dump is always [text]; nothing else moves. *)
Definition fixed_runtime (text : string) : Runtime unit.
Proof.
refine {|
  runtime_Stack w len := (String.substring 0 len text, w);
  stack_ParseDump := parse_from 1;
  time_Now w := (0%Z, w);
  runtime_Gosched w := w;
  growslice old need := Nat.max need (2 * old)
|}.
intros w len; simpl. generalize text.
induction len as [|len IH]; intros [|c s]; simpl; auto with arith.
Defined.

(** Patterns of the toy engine are literals; a lone ["("] is the
    malformed pattern. *)
#[global] Instance regexp : RegexpEngine string := {|
  regexp_Compile str := if String.eqb str "(" then None else Some str;
  Regexp_Match re s := Contains s re
|}.

(** Two goroutines running and one asleep. *)
Definition w3 : world :=
  {| clock := 0; tick := 1000; dumps := ["rrz"] |}.

(** Nothing waits on a lock at first; three goroutines do after two
    scheduling rounds. *)
Definition wlock : world :=
  {| clock := 0; tick := 1000; dumps := ["rcc"; "rsc"; "rsss"] |}.

(** The clock leaps past any deadline at each scheduling round. *)
Definition wlate : world :=
  {| clock := 0; tick := 10 ^ 12; dumps := ["rz"; "rz"; "rz"] |}.

Definition cond (bufSize : nat) : Condition :=
  {| filters := []; filters_cap := 10; buf := bufSize |}.

End Toy.

(** * Properties *)

(** ** The classifier *)

Lemma State_eqb_eq (a b : State) : State_eqb a b = true <-> a = b.
Proof.
  unfold State_eqb. rewrite Z.eqb_eq. split; [|intros ->; reflexivity].
  destruct a, b; simpl; intros E; solve [reflexivity | discriminate E].
Qed.

Lemma NewState_exact (s : string) (st : State) :
  In (s, st) ClassifierSpec.exact_table -> NewState s = st.
Proof.
  simpl. intros HIn.
  repeat (destruct HIn as [E | HIn];
          [injection E as <- <-; reflexivity|]).
  destruct HIn.
Qed.

Ltac split_ifs :=
  repeat match goal with
         | |- context [if ?b then _ else _] => destruct b; [reflexivity|]
         end.

(** C3. [NewState] is a total function that computes exactly the
    classification of the specification: the exact table first, then the
    prefixes "sem", "chan", "select" in this order, then the lower-cased
    test for "garbage" at the start or "gc " anywhere, then [StateOther].
    On every string of the corpus of known reasons it returns the
    documented state, and "panicwait" is [StateOther]. *)
Theorem NewState_classifier :
  (forall s : string, NewState s = ClassifierSpec.classify s)
  /\ Forall (fun p => NewState (fst p) = snd p) ClassifierSpec.corpus
  /\ NewState "panicwait" = StateOther.
Proof.
  split; [|split].
  - intros s.
    unfold NewState, ClassifierSpec.classify, ClassifierSpec.gc_rule, HasPrefix.
    cbn [ClassifierSpec.first_match ClassifierSpec.exact_table
         ClassifierSpec.prefix_table].
    unfold strIdle, strRunnable, strRunning, strSysCall, strWaiting, strDead,
      strEnqueue, strCopyStack, strSleeping, strWaitingIO, strWaitingLock,
      strWaitingChannel, strWaitingSelect, strWaitingGCActivity1,
      strWaitingGCActivity2.
    split_ifs. reflexivity.
  - unfold ClassifierSpec.corpus.
    repeat (constructor; [vm_compute; reflexivity|]).
    constructor.
  - vm_compute. reflexivity.
Qed.

(** ** The capture loop *)

Section EngineFacts.
Context {World : Type} `{RT : Runtime World}.

Lemma capture_unfold (fuel len : nat) (w : World) :
  capture (S fuel) len w =
  (if (String.length (fst (runtime_Stack w len)) =? len)%nat
   then capture fuel (len * 2) (snd (runtime_Stack w len))
   else Some (fst (runtime_Stack w len), len, snd (runtime_Stack w len))).
Proof.
  simpl. destruct (runtime_Stack w len) as [out w']; simpl.
  destruct (Nat.eqb_spec (String.length out) len) as [->|]; reflexivity.
Qed.

Lemma capture_mono (fuel fuel' len : nat) (w : World) r :
  capture fuel len w = Some r -> fuel <= fuel' ->
  capture fuel' len w = Some r.
Proof.
  revert fuel' len w.
  induction fuel as [|fuel IH]; intros fuel' len w Hc Hle; [discriminate|].
  destruct fuel' as [|fuel']; [lia|].
  rewrite capture_unfold in *.
  destruct (_ =? _)%nat; [|assumption].
  apply IH; [assumption|lia].
Qed.

(** The loop started at [init] ends within [j] doublings as soon as
    [init * 2 ^ j] bytes are enough.  [P] holds of the worlds the loop
    goes through. *)
Lemma capture_within (P : World -> Prop) (S0 : nat)
      (Hinv : forall w len, P w -> P (snd (runtime_Stack w len)))
      (Hfull : forall w len, P w -> len < S0 ->
                 String.length (fst (runtime_Stack w len)) = len)
      (Hfits : forall w len, P w -> S0 <= len ->
                 String.length (fst (runtime_Stack w len)) < len) :
  forall j init w, P w -> S0 <= init * 2 ^ j ->
    exists k w1,
      let len := init * 2 ^ k in
      let out := fst (runtime_Stack w1 len) in
      k <= j /\ P w1
      /\ capture (S k) init w = Some (out, len, snd (runtime_Stack w1 len))
      /\ capture k init w = None
      /\ String.length out < len
      /\ (k = 0 \/ init * 2 ^ (k - 1) < S0).
Proof.
  induction j as [|j IH]; intros init w HP Hj.
  - exists 0, w. simpl in Hj. assert (Hin : S0 <= init) by lia.
    specialize (Hfits w init HP Hin).
    cbv zeta. rewrite capture_unfold, Nat.pow_0_r, Nat.mul_1_r.
    destruct (Nat.eqb_spec (String.length (fst (runtime_Stack w init))) init);
      [lia|].
    repeat split; auto.
  - destruct (le_lt_dec S0 init) as [Hin|Hlt].
    + exists 0, w. specialize (Hfits w init HP Hin).
      cbv zeta. rewrite capture_unfold, Nat.pow_0_r, Nat.mul_1_r.
      destruct (Nat.eqb_spec (String.length (fst (runtime_Stack w init))) init);
        [lia|].
      repeat split; auto. lia.
    + specialize (Hfull w init HP Hlt).
      destruct (IH (init * 2) (snd (runtime_Stack w init))) as
          (k & w1 & Hk & HP1 & Hsome & Hnone & Hout & Hleast);
        [apply Hinv, HP|rewrite Nat.pow_succ_r' in Hj; lia|].
      assert (Hpow : init * 2 * 2 ^ k = init * 2 ^ S k).
      { rewrite Nat.pow_succ_r'. lia. }
      exists (S k), w1. cbv zeta.
      rewrite (capture_unfold (S k) init w), (capture_unfold k init w),
        Hfull, Nat.eqb_refl, <- Hpow.
      split; [lia|]. do 4 (split; [assumption|]).
      right. replace (S k - 1) with k by lia.
      destruct Hleast as [->|Hleast].
      * rewrite Nat.pow_0_r. lia.
      * destruct k as [|k]; [rewrite Nat.pow_0_r; lia|].
        replace (S k - 1) with k in Hleast by lia.
        rewrite Nat.pow_succ_r'. lia.
Qed.

Lemma ceil_div_bound (a b : nat) : 0 < b -> a <= b * ceil_div a b.
Proof.
  intros Hb. unfold ceil_div.
  pose proof (Nat.div_mod (a + b - 1) b ltac:(lia)) as Hdm.
  pose proof (Nat.mod_upper_bound (a + b - 1) b ltac:(lia)) as Hmod.
  lia.
Qed.

Lemma le_pow2_log2_up (a : nat) : a <= 2 ^ Nat.log2_up a.
Proof.
  destruct (le_lt_dec a 1) as [Hle|Hlt].
  - rewrite Nat.log2_up_eqn0 by assumption. simpl. assumption.
  - apply Nat.log2_up_spec. assumption.
Qed.

Lemma growth_rounds_enough (S0 init : nat) :
  0 < init -> S0 <= init * 2 ^ growth_rounds S0 init.
Proof.
  intros Hinit. unfold growth_rounds.
  pose proof (ceil_div_bound S0 init Hinit) as H1.
  pose proof (le_pow2_log2_up (ceil_div S0 init)) as H2.
  nia.
Qed.

(** ** The capture loop on a dump that stands still *)

Lemma substring_0_length (n : nat) (s : string) :
  String.length (String.substring 0 n s) = Nat.min n (String.length s).
Proof.
  revert s. induction n as [|n IH]; intros [|c s]; simpl; auto.
Qed.

Lemma substring_0_all (n : nat) (s : string) :
  String.length s <= n -> String.substring 0 n s = s.
Proof.
  revert s. induction n as [|n IH]; intros [|c s]; simpl; intros Hle;
    try reflexivity; try lia.
  f_equal. apply IH. lia.
Qed.

Lemma capture_stable (dump : World -> string) (Hst : stable_dump dump)
      (len : nat) (w : World) :
  0 < len ->
  exists k, forall fuel, k < fuel ->
    capture fuel len w = Some (dump w, len * 2 ^ k, w).
Proof.
  intros Hlen.
  destruct (capture_within (fun w' => w' = w) (S (String.length (dump w))))
    with (j := String.length (dump w)) (init := len) (w := w)
    as (k & w1 & _ & -> & Hsome & _ & Hout & _).
  - intros w' l ->. rewrite Hst. reflexivity.
  - intros w' l -> Hl. rewrite Hst. simpl.
    rewrite substring_0_length. lia.
  - intros w' l -> Hl. rewrite Hst. simpl.
    rewrite substring_0_length. lia.
  - reflexivity.
  - pose proof (Nat.pow_gt_lin_r 2 (String.length (dump w)) ltac:(lia)). nia.
  - cbv zeta in *. rewrite Hst in Hsome, Hout. simpl in Hsome, Hout.
    rewrite substring_0_length in Hout.
    rewrite substring_0_all in Hsome by lia.
    exists k. intros fuel Hfuel.
    apply (capture_mono (S k)); [assumption|lia].
Qed.

Lemma capture_stable_inv (dump : World -> string) (Hst : stable_dump dump)
      (fuel len : nat) (w : World) out len' w' :
  0 < len ->
  capture fuel len w = Some (out, len', w') ->
  out = dump w /\ w' = w /\ len <= len'.
Proof.
  intros Hlen Hc.
  destruct (capture_stable dump Hst len w Hlen) as (k & Hk).
  specialize (Hk (S (Nat.max fuel k)) ltac:(lia)).
  apply (capture_mono _ (S (Nat.max fuel k))) in Hc; [|lia].
  rewrite Hk in Hc. injection Hc as <- <- <-.
  repeat split. pose proof (Nat.pow_nonzero 2 k ltac:(lia)). nia.
Qed.

(** ** The filter loop *)

Lemma filter_sublist (p : Goroutine -> bool) (gs : list Goroutine) :
  sublist (List.filter p gs) gs.
Proof.
  induction gs as [|g gs IH]; simpl; [constructor|].
  destruct (p g); constructor; assumption.
Qed.

Lemma applyFilter_rejects (f : filter) (gs : list Goroutine) :
  applyFilter f gs = None <-> rejects f gs = true.
Proof.
  destruct f as [p|p]; simpl.
  - destruct (length (List.filter p gs) =? 0)%nat; split; congruence.
  - destruct (p gs); simpl; split; congruence.
Qed.

Lemma applyFilter_sublist (f : filter) (gs gs' : list Goroutine) :
  applyFilter f gs = Some gs' -> sublist gs' gs.
Proof.
  destruct f as [p|p]; simpl.
  - destruct (_ =? _)%nat; [discriminate|].
    intros [= <-]. apply filter_sublist.
  - destruct (p gs); simpl; [|discriminate]. intros [= <-]. reflexivity.
Qed.

Lemma applyFilters_app (fs fs' : list filter) (gs : list Goroutine) :
  applyFilters (fs ++ fs') gs =
  match applyFilters fs gs with
  | None => None
  | Some cand => applyFilters fs' cand
  end.
Proof.
  revert gs. induction fs as [|f fs IH]; intros gs; simpl; [reflexivity|].
  destruct (applyFilter f gs); [apply IH|reflexivity].
Qed.

Lemma applyFilters_sublist (fs : list filter) (gs gs' : list Goroutine) :
  applyFilters fs gs = Some gs' -> sublist gs' gs.
Proof.
  revert gs. induction fs as [|f fs IH]; intros gs; simpl.
  - intros [= <-]. reflexivity.
  - destruct (applyFilter f gs) as [cand|] eqn:Hf; [|discriminate].
    intros Hrest. etransitivity; [apply IH, Hrest|].
    eapply applyFilter_sublist, Hf.
Qed.

(** ** [Eval] *)

Lemma Eval_mono (fuel fuel' : nat) (c : Condition) (w : World) r :
  Condition_Eval fuel c w = Some r -> fuel <= fuel' ->
  Condition_Eval fuel' c w = Some r.
Proof.
  unfold Condition_Eval. intros HE Hle.
  destruct (capture fuel (buf c) w) as [[[out len'] w']|] eqn:Hc;
    [|discriminate].
  rewrite (capture_mono _ _ _ _ _ Hc Hle). assumption.
Qed.

Lemma Eval_capture (fuel : nat) (c : Condition) (w : World) out len' w' :
  capture fuel (buf c) w = Some (out, len', w') ->
  Condition_Eval fuel c w =
  Some (eval_dump (filters c) out,
        {| filters := filters c; filters_cap := filters_cap c;
           buf := len' |}, w').
Proof.
  unfold Condition_Eval, eval_dump. intros ->.
  destruct (stack_ParseDump out) as [gs [e|]]; [reflexivity|].
  destruct (applyFilters (filters c) gs); reflexivity.
Qed.

Lemma Eval_inv (fuel : nat) (c : Condition) (w : World) r c' w' :
  Condition_Eval fuel c w = Some (r, c', w') ->
  exists out, capture fuel (buf c) w = Some (out, buf c', w')
              /\ r = eval_dump (filters c) out
              /\ filters c' = filters c
              /\ filters_cap c' = filters_cap c.
Proof.
  intros HE.
  destruct (capture fuel (buf c) w) as [[[out len'] w1]|] eqn:Hc.
  - rewrite (Eval_capture _ _ _ _ _ _ Hc) in HE.
    injection HE as <- <- <-. exists out. auto.
  - unfold Condition_Eval in HE. rewrite Hc in HE. discriminate.
Qed.

Lemma Eval_stable (dump : World -> string) (Hst : stable_dump dump)
      (c : Condition) (w : World) :
  0 < buf c ->
  exists fuel0 len',
    buf c <= len' /\
    forall fuel, fuel0 <= fuel ->
      Condition_Eval fuel c w =
      Some (eval_dump (filters c) (dump w),
            {| filters := filters c; filters_cap := filters_cap c;
               buf := len' |}, w).
Proof.
  intros Hbuf.
  destruct (capture_stable dump Hst (buf c) w Hbuf) as (k & Hk).
  exists (S k), (buf c * 2 ^ k). split.
  - pose proof (Nat.pow_nonzero 2 k ltac:(lia)). nia.
  - intros fuel Hfuel. apply Eval_capture, Hk. lia.
Qed.

Lemma Eval_stable_inv (dump : World -> string) (Hst : stable_dump dump)
      (fuel : nat) (c : Condition) (w : World) r c' w' :
  0 < buf c ->
  Condition_Eval fuel c w = Some (r, c', w') ->
  r = eval_dump (filters c) (dump w) /\ w' = w
  /\ filters c' = filters c /\ 0 < buf c'.
Proof.
  intros Hbuf HE.
  destruct (Eval_inv _ _ _ _ _ _ HE) as (out & Hc & -> & Hfs & _).
  destruct (capture_stable_inv dump Hst _ _ _ _ _ _ Hbuf Hc)
    as (-> & -> & Hle).
  repeat split; auto. lia.
Qed.

(** ** Claims on [Eval] *)

(** C7. The capture loop doubles the buffer exactly when the dump fills
    it and stops at the first dump that leaves room.  With a dump
    collaborator that fills every buffer shorter than [S0] and leaves
    room in every buffer of [S0] bytes or more, the loop started on
    [init > 0] bytes ends after [k] doublings, where [k] is at most
    [ceil (log2 (S0 / init))] and is the least number of doublings that
    reaches [S0]; [Eval] then returns. *)
Theorem capture_growth_rounds (S0 init : nat) (w : World) :
  0 < init ->
  (forall w len, len < S0 ->
     String.length (fst (runtime_Stack w len)) = len) ->
  (forall w len, S0 <= len ->
     String.length (fst (runtime_Stack w len)) < len) ->
  (forall fuel len w0,
     capture (S fuel) len w0 =
     if (String.length (fst (runtime_Stack w0 len)) =? len)%nat
     then capture fuel (len * 2) (snd (runtime_Stack w0 len))
     else Some (fst (runtime_Stack w0 len), len,
                snd (runtime_Stack w0 len)))
  /\ exists k out w',
       k <= growth_rounds S0 init
       /\ S0 <= init * 2 ^ k
       /\ (k = 0 \/ init * 2 ^ (k - 1) < S0)
       /\ String.length out < init * 2 ^ k
       /\ capture k init w = None
       /\ (forall fuel, k < fuel ->
             capture fuel init w = Some (out, init * 2 ^ k, w'))
       /\ (forall c fuel, buf c = init -> k < fuel ->
             exists r c',
               Condition_Eval fuel c w = Some (r, c', w')
               /\ buf c' = init * 2 ^ k).
Proof.
  intros Hinit Hfull Hfits. split; [intros; apply capture_unfold|].
  destruct (capture_within (fun _ => True) S0) with
      (j := growth_rounds S0 init) (init := init) (w := w)
    as (k & w1 & Hk & _ & Hsome & Hnone & Hout & Hleast); auto.
  { apply growth_rounds_enough, Hinit. }
  cbv zeta in *.
  set (len := init * 2 ^ k) in *.
  exists k, (fst (runtime_Stack w1 len)), (snd (runtime_Stack w1 len)).
  split; [assumption|]. split.
  { destruct (le_lt_dec S0 len) as [|Hlt]; [assumption|].
    specialize (Hfull w1 len Hlt). lia. }
  do 3 (split; [assumption|]).
  assert (Hall : forall fuel, k < fuel ->
            capture fuel init w =
            Some (fst (runtime_Stack w1 len), len,
                  snd (runtime_Stack w1 len))).
  { intros fuel Hfuel. apply (capture_mono (S k)); [assumption|lia]. }
  split; [assumption|].
  intros c fuel Hbuf Hfuel. rewrite <- Hbuf in Hall.
  rewrite (Eval_capture _ _ _ _ _ _ (Hall fuel Hfuel)).
  eexists _, _. split; reflexivity.
Qed.

(** C5. A condition without predicates gets from [Eval] the whole
    parsed snapshot and a nil error: whatever dump the capture loop
    ends with, and, on a dump that stands still, for every positive
    buffer size once there is fuel enough. *)
Theorem Eval_no_filters (c : Condition) (w : World) :
  filters c = [] ->
  (forall fuel out len' w' gs,
     capture fuel (buf c) w = Some (out, len', w') ->
     stack_ParseDump out = (gs, None) ->
     exists c', Condition_Eval fuel c w = Some ((gs, None), c', w')
                /\ filters c' = [])
  /\ (forall dump gs,
        stable_dump dump -> 0 < buf c ->
        stack_ParseDump (dump w) = (gs, None) ->
        exists fuel0, forall fuel, fuel0 <= fuel ->
          exists c', Condition_Eval fuel c w = Some ((gs, None), c', w)
                     /\ filters c' = []).
Proof.
  intros Hfs. split.
  - intros fuel out len' w' gs Hc Hp.
    rewrite (Eval_capture _ _ _ _ _ _ Hc).
    unfold eval_dump. rewrite Hp, Hfs. simpl.
    eexists. split; reflexivity.
  - intros dump gs Hst Hbuf Hp.
    destruct (Eval_stable dump Hst c w Hbuf) as (fuel0 & len' & _ & HE).
    exists fuel0. intros fuel Hfuel. rewrite (HE fuel Hfuel).
    unfold eval_dump. rewrite Hp, Hfs. simpl.
    eexists. split; reflexivity.
Qed.

(** C8. In the filter loop a unit predicate leaves a subsequence of the
    candidates it was given and a set predicate leaves them as they are;
    so the candidates after [j] predicates are a subsequence of, and no
    more numerous than, the candidates after [k <= j] predicates. *)
Theorem candidates_narrow (fs : list filter) (gs : list Goroutine) :
  (forall p cand cand',
     applyFilter (FilterByGo p) cand = Some cand' ->
     cand' = List.filter p cand /\ sublist cand' cand
     /\ length cand' <= length cand)
  /\ (forall p cand cand',
        applyFilter (FilterByGoes p) cand = Some cand' -> cand' = cand)
  /\ (forall k j cand_j,
        k <= j ->
        applyFilters (firstn j fs) gs = Some cand_j ->
        exists cand_k,
          applyFilters (firstn k fs) gs = Some cand_k
          /\ sublist cand_j cand_k
          /\ length cand_j <= length cand_k
          /\ sublist cand_k gs).
Proof.
  split; [|split].
  - intros p cand cand' Hf.
    pose proof (applyFilter_sublist _ _ _ Hf) as Hsub.
    simpl in Hf. destruct (_ =? _)%nat; [discriminate|].
    injection Hf as <-. repeat split; [assumption|].
    apply sublist_length, Hsub.
  - intros p cand cand'. simpl.
    destruct (p cand); simpl; congruence.
  - intros k j cand_j Hkj Hj.
    assert (Hsplit : firstn j fs
                     = (firstn k fs ++ firstn (j - k) (skipn k fs))%list).
    { rewrite take_take_drop. f_equal. lia. }
    rewrite Hsplit, applyFilters_app in Hj.
    destruct (applyFilters (firstn k fs) gs) as [cand_k|] eqn:Hk;
      [|discriminate].
    exists cand_k. split; [reflexivity|].
    pose proof (applyFilters_sublist _ _ _ Hj) as Hsub.
    repeat split; [assumption|apply sublist_length, Hsub|].
    eapply applyFilters_sublist, Hk.
Qed.

(** ** Short circuit *)

Lemma build_filters (c : Condition) (fs : list filter) :
  filters (build c fs) = (filters c ++ fs)%list
  /\ buf (build c fs) = buf c.
Proof.
  unfold build. revert c.
  induction fs as [|f fs IH]; intros c; simpl.
  - rewrite app_nil_r. auto.
  - destruct (IH (append_filter c f)) as [-> ->]. simpl.
    rewrite <- app_assoc. auto.
Qed.

Lemma applyFilters_rejected (pre post : list filter) (f : filter)
      (gs cand : list Goroutine) :
  applyFilters pre gs = Some cand ->
  rejects f cand = true ->
  applyFilters (pre ++ f :: post) gs = None.
Proof.
  intros Hpre Hrej. rewrite applyFilters_app, Hpre. simpl.
  apply applyFilter_rejects in Hrej. rewrite Hrej. reflexivity.
Qed.

(** C4. When the predicates before [f] leave the candidates [cand] and
    [f] turns them down (a unit predicate none of them passes, a set
    predicate false on them), [Eval] returns the empty result with a nil
    error, whatever predicates follow [f], and also after any further
    predicates are appended to the condition. *)
Theorem Eval_short_circuit (c : Condition) (w : World)
        (pre post : list filter) (f : filter)
        (fuel : nat) (out : string) (len' : nat) (w' : World)
        (gs cand : list Goroutine) :
  filters c = (pre ++ f :: post)%list ->
  capture fuel (buf c) w = Some (out, len', w') ->
  stack_ParseDump out = (gs, None) ->
  applyFilters pre gs = Some cand ->
  rejects f cand = true ->
  (forall post', applyFilters (pre ++ f :: post') gs = None)
  /\ (exists c', Condition_Eval fuel c w = Some (([], None), c', w'))
  /\ (forall more, exists c',
        Condition_Eval fuel (build c more) w = Some (([], None), c', w')).
Proof.
  intros Hfs Hc Hp Hpre Hrej.
  assert (Hall : forall post', applyFilters (pre ++ f :: post') gs = None).
  { intros post'. eapply applyFilters_rejected; eassumption. }
  split; [assumption|]. split.
  - rewrite (Eval_capture _ _ _ _ _ _ Hc). unfold eval_dump.
    rewrite Hp, Hfs, Hall. eexists. reflexivity.
  - intros more. destruct (build_filters c more) as [Hbf Hbb].
    rewrite <- Hbb in Hc.
    rewrite (Eval_capture _ _ _ _ _ _ Hc). unfold eval_dump.
    rewrite Hp, Hbf, Hfs, <- app_assoc. simpl. rewrite Hall.
    eexists. reflexivity.
Qed.

(** ** Order of the predicates *)

Lemma filter_filter_comm (p q : Goroutine -> bool) (gs : list Goroutine) :
  List.filter p (List.filter q gs) = List.filter q (List.filter p gs).
Proof.
  induction gs as [|g gs IH]; simpl; [reflexivity|].
  destruct (q g) eqn:Hq, (p g) eqn:Hp; simpl; rewrite ?Hq, ?Hp, IH;
    reflexivity.
Qed.

(** Two unit predicates in a row. *)
Lemma applyFilters_two_units (p q : Goroutine -> bool) (fs : list filter)
      (gs : list Goroutine) :
  applyFilters (FilterByGo p :: FilterByGo q :: fs) gs =
  match List.filter q (List.filter p gs) with
  | [] => None
  | cand => applyFilters fs cand
  end.
Proof.
  cbn [applyFilters applyFilter].
  destruct (List.filter p gs) as [|a la]; [reflexivity|].
  cbn [length Nat.eqb].
  destruct (List.filter q (a :: la)); reflexivity.
Qed.

Lemma applyFilters_reorder (fs fs' : list filter) :
  reorder fs fs' -> forall gs, applyFilters fs gs = applyFilters fs' gs.
Proof.
  induction 1 as [fs|f fs fs' _ IH|f g fs Hkind|fs1 fs2 fs3 _ IH1 _ IH2];
    intros gs.
  - reflexivity.
  - simpl. destruct (applyFilter f gs); [apply IH|reflexivity].
  - destruct f as [p|p], g as [q|q]; try discriminate Hkind.
    + rewrite !applyFilters_two_units, (filter_filter_comm q p).
      reflexivity.
    + cbn [applyFilters applyFilter].
      destruct (p gs) eqn:Hp, (q gs) eqn:Hq; simpl;
        rewrite ?Hp, ?Hq; reflexivity.
  - rewrite IH1. apply IH2.
Qed.

Lemma reorder_units (ps ps' : list (Goroutine -> bool)) :
  Permutation ps ps' -> reorder (map FilterByGo ps) (map FilterByGo ps').
Proof.
  induction 1; simpl.
  - apply reorder_refl.
  - apply reorder_skip. assumption.
  - apply reorder_swap. reflexivity.
  - eapply reorder_trans; eassumption.
Qed.

Lemma all_pass_cons (p : Goroutine -> bool) (ps : list (Goroutine -> bool))
      (gs : list Goroutine) :
  all_pass (p :: ps) gs = all_pass ps (List.filter p gs).
Proof.
  unfold all_pass. cbn [forallb].
  induction gs as [|g gs IH]; [reflexivity|].
  cbn [List.filter]. destruct (p g); cbn [List.filter andb]; rewrite IH;
    reflexivity.
Qed.

Lemma all_pass_nil (gs : list Goroutine) : all_pass [] gs = gs.
Proof.
  unfold all_pass. cbn [forallb].
  induction gs as [|g gs IH]; [reflexivity|].
  cbn [List.filter]. rewrite IH. reflexivity.
Qed.

Lemma applyFilters_units (ps : list (Goroutine -> bool))
      (gs : list Goroutine) :
  match applyFilters (map FilterByGo ps) gs with
  | Some gs' => gs' = all_pass ps gs
  | None => all_pass ps gs = []
  end.
Proof.
  revert gs. induction ps as [|p ps IH]; intros gs; simpl.
  - symmetry. apply all_pass_nil.
  - rewrite all_pass_cons.
    destruct (List.filter p gs) as [|a la]; simpl; [|apply IH].
    unfold all_pass. reflexivity.
Qed.

Lemma Eval_same_filters (fuel : nat) (c1 c2 : Condition) (w : World) :
  buf c1 = buf c2 ->
  (forall gs, applyFilters (filters c1) gs = applyFilters (filters c2) gs) ->
  observe (Condition_Eval fuel c1 w) = observe (Condition_Eval fuel c2 w).
Proof.
  intros Hbuf Hfs. unfold Condition_Eval. rewrite Hbuf.
  destruct (capture fuel (buf c2) w) as [[[out len'] w']|]; [|reflexivity].
  destruct (stack_ParseDump out) as [gs [e|]]; [reflexivity|].
  rewrite Hfs. destruct (applyFilters (filters c2) gs); reflexivity.
Qed.

(** C1, as the code has it.  [Eval] gives the same result when
    neighbouring predicates of the same kind change places (unit with
    unit, set with set).  For unit predicates alone every permutation
    gives the same result, and it is the goroutines of the snapshot that
    pass all of them.  A set predicate judges the candidates left by the
    unit predicates before it, so it is not free to move across
    one. *)
Theorem Eval_reorder (c1 c2 : Condition) (w : World) :
  buf c1 = buf c2 ->
  (reorder (filters c1) (filters c2) ->
   forall fuel,
     observe (Condition_Eval fuel c1 w) = observe (Condition_Eval fuel c2 w))
  /\ (forall ps1 ps2,
        filters c1 = map FilterByGo ps1 ->
        filters c2 = map FilterByGo ps2 ->
        Permutation ps1 ps2 ->
        (forall fuel,
           observe (Condition_Eval fuel c1 w)
           = observe (Condition_Eval fuel c2 w))
        /\ (forall text gs,
              stack_ParseDump text = (gs, None) ->
              eval_dump (filters c1) text = (all_pass ps1 gs, None)
              /\ eval_dump (filters c2) text = (all_pass ps1 gs, None))).
Proof.
  intros Hbuf. split.
  - intros Hre fuel. apply Eval_same_filters; [assumption|].
    apply applyFilters_reorder, Hre.
  - intros ps1 ps2 H1 H2 Hperm.
    pose proof (reorder_units _ _ Hperm) as Hre.
    rewrite <- H1, <- H2 in Hre.
    split.
    + intros fuel. apply Eval_same_filters; [assumption|].
      apply applyFilters_reorder, Hre.
    + intros text gs Hp. unfold eval_dump. rewrite Hp.
      rewrite <- (applyFilters_reorder _ _ Hre gs), H1.
      pose proof (applyFilters_units ps1 gs) as Hu.
      destruct (applyFilters (map FilterByGo ps1) gs) as [gs'|];
        rewrite Hu; auto.
Qed.

(** ** The polling loop *)

Lemma eval_dump_error (fs : list filter) (text : string) gs e :
  eval_dump fs text = (gs, Some e) ->
  gs = [] /\ exists msg, e = ErrParseDump msg.
Proof.
  unfold eval_dump. destruct (stack_ParseDump text) as [l [msg|]].
  - intros [= <- <-]. eauto.
  - destruct (applyFilters fs l); discriminate.
Qed.

Lemma Eval_error (fuel : nat) (c : Condition) (w : World) gs e c' w' :
  Condition_Eval fuel c w = Some ((gs, Some e), c', w') ->
  gs = [] /\ e <> ErrTimeout.
Proof.
  intros HE. destruct (Eval_inv _ _ _ _ _ _ HE) as (out & _ & Hr & _).
  symmetry in Hr. apply eval_dump_error in Hr as (-> & msg & ->).
  split; [reflexivity|discriminate].
Qed.

Lemma Wait_turn_mono (efuel efuel' : nat) (start timeout : Z)
      (c : Condition) (w : World) t :
  Wait_turn efuel start timeout c w = Some t -> efuel <= efuel' ->
  Wait_turn efuel' start timeout c w = Some t.
Proof.
  unfold Wait_turn. intros Ht Hle.
  destruct (Condition_Eval efuel c w) as [r|] eqn:HE; [|discriminate].
  rewrite (Eval_mono _ _ _ _ _ HE Hle). assumption.
Qed.

Lemma Wait_loop_mono (efuel efuel' fuel fuel' : nat) (start timeout : Z)
      (c : Condition) (w : World) r :
  Wait_loop efuel fuel start timeout c w = Some r ->
  efuel <= efuel' -> fuel <= fuel' ->
  Wait_loop efuel' fuel' start timeout c w = Some r.
Proof.
  intros HW Hle. revert fuel' c w HW.
  induction fuel as [|fuel IH]; intros fuel' c w HW Hf; [discriminate|].
  destruct fuel' as [|fuel']; [lia|]. simpl in *.
  destruct (Wait_turn efuel start timeout c w) as [t|] eqn:Ht;
    [|discriminate].
  rewrite (Wait_turn_mono _ _ _ _ _ _ _ Ht Hle).
  destruct t as [r' c' w'|c' w']; [assumption|].
  apply IH; [assumption|lia].
Qed.

(** What a turn that ends the loop, or goes round, says of its
    [Eval]. *)
Lemma Wait_check_Done (start timeout : Z) gs e c' w' r c2 w2 :
  Wait_check start timeout (gs, e) c' w' = Done r c2 w2 ->
  c2 = c'
  /\ ((exists err, e = Some err /\ r = ([], Some err) /\ w2 = w')
      \/ (e = None /\ gs <> [] /\ r = (gs, None) /\ w2 = w')
      \/ (e = None /\ gs = [] /\ r = ([], Some ErrTimeout)
          /\ timed_out start timeout w' w2)).
Proof.
  unfold Wait_check, timed_out. destruct e as [err|].
  - intros [= <- <- <-]. split; [reflexivity|]. left. eauto.
  - destruct gs as [|g gs]; simpl.
    + destruct (Z.gtb_spec timeout 0) as [Hpos|]; [|discriminate].
      destruct (time_Now w') as [now w''] eqn:Hnow.
      destruct (Z.gtb_spec (now - start) timeout) as [Hlate|];
        [|discriminate].
      intros [= <- <- <-]. split; [reflexivity|]. right; right.
      repeat split; eauto.
    + intros [= <- <- <-]. split; [reflexivity|]. right; left.
      repeat split. discriminate.
Qed.

Lemma Wait_check_Again (start timeout : Z) gs e c' w' c2 w2 :
  Wait_check start timeout (gs, e) c' w' = Again c2 w2 ->
  c2 = c' /\ e = None /\ gs = []
  /\ exists w1, in_time start timeout w' w1 /\ w2 = runtime_Gosched w1.
Proof.
  unfold Wait_check, in_time. destruct e as [err|]; [discriminate|].
  destruct gs as [|g gs]; simpl; [|discriminate].
  destruct (Z.gtb_spec timeout 0) as [Hpos|Hnon].
  - destruct (time_Now w') as [now w''] eqn:Hnow.
    destruct (Z.gtb_spec (now - start) timeout) as [|Hok]; [discriminate|].
    intros [= <- <-]. repeat split. exists w''. split; [|reflexivity].
    right. split; [lia|]. exists now. split; [reflexivity|lia].
  - intros [= <- <-]. repeat split. exists w'. split; [|reflexivity].
    left. split; [lia|reflexivity].
Qed.



Lemma Wait_check_result (start timeout : Z) gs e c' w' :
  e <> None \/ gs <> [] ->
  (e <> None -> gs = []) ->
  Wait_check start timeout (gs, e) c' w' = Done (gs, e) c' w'.
Proof.
  unfold Wait_check. intros Hres Herr. destruct e as [err|].
  - rewrite Herr by discriminate. reflexivity.
  - destruct Hres as [|Hgs]; [congruence|].
    destruct gs; [congruence|reflexivity].
Qed.

(** A run of the loop that returns is a series of unsuccessful
    attempts and one last turn. *)
Lemma Wait_loop_polls (efuel fuel : nat) (start timeout : Z)
      (c : Condition) (w : World) r c' w' :
  Wait_loop efuel fuel start timeout c w = Some (r, c', w') ->
  exists k ck wk,
    k < fuel
    /\ polls start timeout k (c, w) (ck, wk)
    /\ Wait_turn efuel start timeout ck wk = Some (Done r c' w').
Proof.
  revert c w. induction fuel as [|fuel IH]; intros c w HW; [discriminate|].
  simpl in HW.
  destruct (Wait_turn efuel start timeout c w) as [[r1 c1 w1|c1 w1]|] eqn:Ht;
    [| |discriminate].
  - injection HW as <- <- <-. exists 0, c, w.
    split; [lia|]. split; [constructor|assumption].
  - destruct (IH _ _ HW) as (k & ck & wk & Hk & Hpolls & Hlast).
    exists (S k), ck, wk. split; [lia|]. split; [|assumption].
    unfold Wait_turn in Ht.
    destruct (Condition_Eval efuel c w) as [[[[gs e] ca] wa]|] eqn:HE;
      [|discriminate].
    injection Ht as Ht.
    apply Wait_check_Again in Ht as (-> & -> & -> & w2 & Hin & ->).
    econstructor; eassumption.
Qed.



Lemma Wait_turn_Done (efuel : nat) (start timeout : Z)
      (c : Condition) (w : World) r c' w2 :
  Wait_turn efuel start timeout c w = Some (Done r c' w2) ->
  (snd r <> Some ErrTimeout
   /\ Condition_Eval efuel c w = Some (r, c', w2)
   /\ (snd r <> None \/ fst r <> []))
  \/ (r = ([], Some ErrTimeout)
      /\ exists w1, Condition_Eval efuel c w = Some (([], None), c', w1)
                    /\ timed_out start timeout w1 w2).
Proof.
  unfold Wait_turn. intros Ht.
  destruct (Condition_Eval efuel c w) as [[[[gs e] ca] wa]|] eqn:HE;
    [|discriminate].
  injection Ht as Ht.
  apply Wait_check_Done in Ht
    as (-> & [(err & -> & -> & ->)|[(-> & Hgs & -> & ->)|(-> & -> & -> & Hto)]]).
  - left. destruct (Eval_error _ _ _ _ _ _ _ HE) as [-> Hne]. simpl.
    split; [congruence|]. split; [reflexivity|]. left. discriminate.
  - left. simpl. split; [discriminate|]. split; [reflexivity|]. right.
    assumption.
  - right. split; [reflexivity|]. exists wa. split; [reflexivity|assumption].
Qed.


(** C10. [Wait] runs an [Eval] before it looks at the clock: when the
    first [Eval] returns an error or a non-empty result, [Wait] returns
    it for every [timeout] and every clock; and [Wait] returns
    [ErrTimeout] only after its first [Eval] has returned the empty
    result without an error. *)
Theorem Wait_evaluates_first (c : Condition) (timeout : Z) (w : World) :
  let w0 := snd (time_Now w) in
  (forall efuel gs e c' w',
     Condition_Eval efuel c w0 = Some ((gs, e), c', w') ->
     e <> None \/ gs <> [] ->
     forall fuel, 0 < fuel -> efuel <= fuel ->
       Condition_Wait fuel c timeout w = Some ((gs, e), c', w'))
  /\ (forall fuel c' w',
        Condition_Wait fuel c timeout w
        = Some (([], Some ErrTimeout), c', w') ->
        exists c1 w1,
          Condition_Eval fuel c w0 = Some (([], None), c1, w1)).
Proof.
  intros w0. subst w0. unfold Condition_Wait.
  destruct (time_Now w) as [start w0]. simpl. split.
  - intros efuel gs e c' w' HE Hres fuel Hpos Hle.
    destruct fuel as [|fuel]; [lia|]. cbn [Wait_loop]. unfold Wait_turn.
    rewrite (Eval_mono _ _ _ _ _ HE Hle).
    rewrite Wait_check_result; [reflexivity|assumption|].
    destruct e as [err|]; [|congruence]. intros _.
    apply (Eval_error _ _ _ _ _ _ _ HE).
  - intros fuel c' w' HW.
    destruct fuel as [|fuel']; [discriminate|].
    remember (S fuel') as fuel eqn:Hfuel.
    rewrite Hfuel in HW at 2. cbn [Wait_loop] in HW.
    unfold Wait_turn in HW.
    destruct (Condition_Eval fuel c w0) as [[[[gs e] c1] w1]|] eqn:HE;
      [|discriminate].
    destruct (Wait_check start timeout (gs, e) c1 w1) as [r c2 w2|c2 w2]
      eqn:Hcheck.
    + injection HW as -> -> ->.
      apply Wait_check_Done in Hcheck
        as (_ & [(err & -> & [= <-] & _)|[(_ & _ & [=] & _)|(-> & -> & _)]]).
      * destruct (Eval_error _ _ _ _ _ _ _ HE) as [_ Hne]. congruence.
      * eauto.
    + apply Wait_check_Again in Hcheck as (_ & -> & -> & _). eauto.
Qed.

(** ** Sizing *)

(** On an empty buffer [n == len(c.buf)] holds with [n = 0], and the
    buffer made next is empty again. *)
Lemma capture_zero (fuel : nat) (w : World) : capture fuel 0 w = None.
Proof.
revert w. induction fuel as [|fuel IH]; intros w; [reflexivity|].
rewrite capture_unfold.
pose proof (runtime_Stack_le w 0) as Hle.
destruct (Nat.eqb_spec (String.length (fst (runtime_Stack w 0))) 0); [|lia].
apply IH.
Qed.

Lemma Eval_zero (fuel : nat) (c : Condition) (w : World) :
  buf c = 0 -> Condition_Eval fuel c w = None.
Proof.
intros Hbuf. unfold Condition_Eval. rewrite Hbuf, capture_zero. reflexivity.
Qed.

Lemma Wait_zero (fuel : nat) (c : Condition) (timeout : Z) (w : World) :
  buf c = 0 -> Condition_Wait fuel c timeout w = None.
Proof.
intros Hbuf. unfold Condition_Wait. destruct (time_Now w) as [start w0].
destruct fuel as [|fuel]; [reflexivity|].
cbn [Wait_loop]. unfold Wait_turn.
rewrite Eval_zero by assumption. reflexivity.
Qed.

(** The turn taken after an [Eval] does not look at the condition. *)
Lemma Wait_check_cond (start timeout : Z) (r : result) (ca cb : Condition)
      (w : World) :
  match Wait_check start timeout r ca w with
  | Done r' c' w' => c' = ca /\ Wait_check start timeout r cb w = Done r' cb w'
  | Again c' w' => c' = ca /\ Wait_check start timeout r cb w = Again cb w'
  end.
Proof.
unfold Wait_check. destruct r as [gs [e|]]; [auto|].
destruct (0 <? length gs)%nat; [auto|].
destruct (timeout >? 0)%Z; [|auto].
destruct (time_Now w) as [now w''].
destruct (now - start >? timeout)%Z; auto.
Qed.

Lemma Wait_loop_sizing (dump : World -> string) (Hst : stable_dump dump)
      (start timeout : Z) (efuel fuel : nat) :
  forall (c1 c2 : Condition) (w : World) r c1' w',
    filters c1 = filters c2 -> 0 < buf c1 -> 0 < buf c2 ->
    Wait_loop efuel fuel start timeout c1 w = Some (r, c1', w') ->
    exists efuel' c2',
      Wait_loop efuel' fuel start timeout c2 w = Some (r, c2', w').
Proof.
induction fuel as [|fuel IH]; intros c1 c2 w r c1' w' Hfs Hb1 Hb2 HW;
  [discriminate|].
simpl in HW. unfold Wait_turn in HW.
destruct (Condition_Eval efuel c1 w) as [[[r1 c1a] w1]|] eqn:HE1;
  [|discriminate].
destruct (Eval_stable_inv dump Hst _ _ _ _ _ _ Hb1 HE1)
  as (-> & -> & Hfa & Hba).
destruct (Eval_stable dump Hst c2 w Hb2) as (fuel0 & len2 & Hlen2 & HE2).
set (c2a := {| filters := filters c2; filters_cap := filters_cap c2;
               buf := len2 |}) in *.
rewrite Hfs in HW.
pose proof (Wait_check_cond start timeout
              (eval_dump (filters c2) (dump w)) c1a c2a w) as Hturn.
destruct (Wait_check start timeout (eval_dump (filters c2) (dump w)) c1a w)
  as [r' ca wa|ca wa]; destruct Hturn as [-> Hturn].
- injection HW as <- <- <-. exists fuel0, c2a. simpl. unfold Wait_turn.
  rewrite (HE2 fuel0 (Nat.le_refl _)), Hturn. reflexivity.
- destruct (IH c1a c2a wa r c1' w') as (ef' & c2' & HW2); auto.
  { simpl. congruence. }
  { simpl. lia. }
  exists (Nat.max fuel0 ef'), c2'. simpl. unfold Wait_turn.
  rewrite (HE2 (Nat.max fuel0 ef')) by lia. rewrite Hturn.
  apply (Wait_loop_mono ef' _ fuel); [assumption|lia|lia].
Qed.

Lemma Wait_sizing (dump : World -> string) (Hst : stable_dump dump)
      (c1 c2 : Condition) (timeout : Z) (w : World) o :
  filters c1 = filters c2 -> 0 < buf c1 -> 0 < buf c2 ->
  (exists fuel, observe (Condition_Wait fuel c1 timeout w) = Some o) ->
  exists fuel, observe (Condition_Wait fuel c2 timeout w) = Some o.
Proof.
intros Hfs Hb1 Hb2 (fuel & HW). unfold Condition_Wait in *.
destruct (time_Now w) as [start w0].
destruct (Wait_loop fuel fuel start timeout c1 w0) as [[[r c1'] w']|] eqn:HL;
  [|discriminate].
destruct (Wait_loop_sizing dump Hst _ _ _ _ _ _ _ _ _ _ Hfs Hb1 Hb2 HL)
  as (ef' & c2' & HL2).
exists (Nat.max ef' fuel).
rewrite (Wait_loop_mono ef' (Nat.max ef' fuel) fuel (Nat.max ef' fuel)
           _ _ _ _ _ HL2) by lia.
assumption.
Qed.

(** X22. Sizing is tuning for every buffer that is not empty: with a
    dump that stands still while it is captured, two conditions made with
    non-negative filter capacities and positive buffer sizes, and given
    the same predicates, behave alike: [Eval] returns on both, with the
    same result, and [Wait] returns on one exactly when it returns on the
    other, with the same result.  Both constructors agree on them. *)
Theorem sizing_is_tuning (dump : World -> string)
        (filterSize1 bufSize1 filterSize2 bufSize2 : Z)
        (added : list filter) (timeout : Z) (w : World) :
  stable_dump dump ->
  (0 <= filterSize1)%Z -> (0 <= filterSize2)%Z ->
  (0 < bufSize1)%Z -> (0 < bufSize2)%Z ->
  exists c1 c2,
    NewConditionWithConfig filterSize1 bufSize1 = Returns c1
    /\ NewConditionWithConfig filterSize2 bufSize2 = Returns c2
    /\ NewCondition [WithFilterSize filterSize1; WithBufSize bufSize1]
       = Returns c1
    /\ NewCondition [WithBufSize bufSize2; WithFilterSize filterSize2]
       = Returns c2
    /\ (exists fuel0 r,
          forall fuel, fuel0 <= fuel ->
            observe (Condition_Eval fuel (build c1 added) w) = Some (r, w)
            /\ observe (Condition_Eval fuel (build c2 added) w) = Some (r, w))
    /\ (forall o,
          (exists fuel,
             observe (Condition_Wait fuel (build c1 added) timeout w) = Some o)
          <->
          (exists fuel,
             observe (Condition_Wait fuel (build c2 added) timeout w)
             = Some o)).
Proof.
intros Hst Hf1 Hf2 Hb1 Hb2.
exists {| filters := []; filters_cap := Z.to_nat filterSize1;
          buf := Z.to_nat bufSize1 |},
       {| filters := []; filters_cap := Z.to_nat filterSize2;
          buf := Z.to_nat bufSize2 |}.
unfold NewConditionWithConfig, NewCondition, WithFilterSize, WithBufSize,
  make_cap, make_len. simpl.
destruct (Z.ltb_spec filterSize1 0); [lia|].
destruct (Z.ltb_spec filterSize2 0); [lia|].
destruct (Z.ltb_spec bufSize1 0); [lia|].
destruct (Z.ltb_spec bufSize2 0); [lia|]. simpl.
do 4 (split; [reflexivity|]).
set (c1 := build _ added). set (c2 := build _ added).
assert (Hfs : filters c1 = filters c2).
{ subst c1 c2.
  rewrite (proj1 (build_filters _ added)), (proj1 (build_filters _ added)).
  reflexivity. }
assert (Hc1 : 0 < buf c1).
{ subst c1. rewrite (proj2 (build_filters _ added)). simpl. lia. }
assert (Hc2 : 0 < buf c2).
{ subst c2. rewrite (proj2 (build_filters _ added)). simpl. lia. }
split.
- destruct (Eval_stable dump Hst c1 w Hc1) as (f1 & l1 & _ & HE1).
  destruct (Eval_stable dump Hst c2 w Hc2) as (f2 & l2 & _ & HE2).
  exists (Nat.max f1 f2), (eval_dump (filters c1) (dump w)).
  intros fuel Hfuel.
  rewrite HE1, HE2 by lia. rewrite Hfs. split; reflexivity.
- intros o. split; apply (Wait_sizing dump Hst); auto.
Qed.
End EngineFacts.

(** ** The empty buffer *)

Section ZeroBuffer.
Context {World : Type} `{RT : Runtime World}.

(** C2. The code at the failing input, a snapshot buffer of zero bytes.
    Both constructors accept the size and make a condition whose buffer
    is empty (an empty slice is not [nil], so no default replaces it).
    On it the capture loop finds [n == len(c.buf)] with [n = 0] and
    retries on [make([]byte, 0*2)], the same empty buffer; hence, with
    every runtime, every predicate list and every amount of fuel, neither
    [Eval] nor [Wait] returns.  A buffer of one byte, on a dump that
    stands still, makes [Eval] return: the sizes do not behave alike. *)
Theorem zero_buffer_never_grows (n : nat) :
  exists c0 c1,
    NewConditionWithConfig (Z.of_nat n) 0 = Returns c0
    /\ NewCondition [WithFilterSize (Z.of_nat n); WithBufSize 0] = Returns c0
    /\ NewConditionWithConfig (Z.of_nat n) 1 = Returns c1
    /\ buf c0 = 0 /\ buf c1 = 1
    /\ (forall fuel w,
          capture (S fuel) 0 w = capture fuel 0 (snd (runtime_Stack w 0)))
    /\ (forall added fuel w, Condition_Eval fuel (build c0 added) w = None)
    /\ (forall added fuel timeout w,
          Condition_Wait fuel (build c0 added) timeout w = None)
    /\ (forall dump, stable_dump dump ->
        forall added w, exists fuel r c',
          Condition_Eval fuel (build c1 added) w = Some (r, c', w)).
Proof.
exists {| filters := []; filters_cap := Z.to_nat (Z.of_nat n); buf := 0 |},
       {| filters := []; filters_cap := Z.to_nat (Z.of_nat n); buf := 1 |}.
unfold NewConditionWithConfig, NewCondition, WithFilterSize, WithBufSize,
  make_cap, make_len. cbn [apply_opts panics_bind filters0 buf0].
destruct (Z.ltb_spec (Z.of_nat n) 0) as [Hneg|_]; [lia|].
cbn [panics_bind filters0 buf0]. simpl (0 <? 0)%Z. simpl (1 <? 0)%Z.
cbn [panics_bind filters0 buf0].
do 5 (split; [reflexivity|]).
split; [|split; [|split]].
- intros fuel w. rewrite capture_unfold.
  pose proof (runtime_Stack_le w 0) as Hle.
  destruct (Nat.eqb_spec (String.length (fst (runtime_Stack w 0))) 0);
    [reflexivity|lia].
- intros added fuel w. apply Eval_zero.
  rewrite (proj2 (build_filters _ added)). reflexivity.
- intros added fuel timeout w. apply Wait_zero.
  rewrite (proj2 (build_filters _ added)). reflexivity.
- intros dump Hst added w.
  set (c1 := build _ added).
  assert (Hbuf : 0 < buf c1).
  { subst c1. rewrite (proj2 (build_filters _ added)). simpl. lia. }
  destruct (Eval_stable dump Hst c1 w Hbuf) as (fuel0 & len' & _ & HE).
  exists fuel0. eexists _, _. apply HE. lia.
Qed.
End ZeroBuffer.

(** ** The creation-site filter *)

Section CreatedByFacts.
Context {World : Type} `{RT : Runtime World}.
Context {Regexp : Type} `{RE : RegexpEngine Regexp}.

Lemma eval_dump_one_unit (p : Goroutine -> bool) (text : string)
      (gs : list Goroutine) :
  stack_ParseDump text = (gs, None) ->
  eval_dump [FilterByGo p] text = (List.filter p gs, None).
Proof.
unfold eval_dump. intros ->. simpl.
destruct (List.filter p gs); reflexivity.
Qed.

(** C9. [CreatedBy] compiles its pattern before it adds anything: on a
    malformed pattern the call panics and yields no condition, so no
    [Eval] can follow; on a valid one it appends a unit predicate that is
    true of exactly the goroutines whose creation-site name the compiled
    pattern matches, and on a condition with no other predicate [Eval]
    keeps exactly those goroutines of the snapshot. *)
Theorem CreatedBy_compiles_first (c : Condition) (pat : string) :
  (regexp_Compile pat = None ->
   exists msg, Condition_CreatedBy c pat = Panic msg)
  /\ (forall re, regexp_Compile pat = Some re ->
        exists p,
          Condition_CreatedBy c pat
          = Returns (append_filter c (FilterByGo p))
          /\ (forall g,
                p g = Regexp_Match re (Signature_CreatedBy_PkgDotName g))
          /\ (filters c = [] ->
              forall text gs,
                stack_ParseDump text = (gs, None) ->
                eval_dump (filters (append_filter c (FilterByGo p))) text
                = (List.filter
                     (fun g =>
                        Regexp_Match re (Signature_CreatedBy_PkgDotName g))
                     gs, None))).
Proof.
unfold Condition_CreatedBy, regexp_MustCompile. split.
- intros ->. simpl. eauto.
- intros re ->. simpl.
  exists (fun g => Regexp_Match re (Signature_CreatedBy_PkgDotName g)).
  split; [reflexivity|]. split; [reflexivity|].
  intros Hfs text gs Hp. simpl. rewrite Hfs. simpl.
  apply eval_dump_one_unit, Hp.
Qed.
End CreatedByFacts.

(** ** The filter loop on the reused array *)

Section SliceReuseFacts.
Import SliceReuse.

Lemma elements_length (src : ranged) (arr : list Goroutine) :
  ranged_len src <= length arr ->
  length (elements src arr) = ranged_len src.
Proof.
destruct src as [gs|n]; simpl; [reflexivity|].
intros Hn. apply length_take_le, Hn.
Qed.

Lemma ranged_get_elements (src : ranged) (arr : list Goroutine) (i : nat) :
  ranged_get src arr i = elements src arr !! i.
Proof.
destruct src as [gs|n]; simpl; [reflexivity|].
destruct (Nat.ltb_spec i n) as [Hlt|Hge].
- symmetry. apply lookup_take_lt, Hlt.
- symmetry. apply lookup_ge_None_2. rewrite length_take. lia.
Qed.

(** A store below the index read next leaves the cells still to be read
    as they were. *)
Lemma elements_insert_drop (src : ranged) (arr : list Goroutine)
      (i j : nat) (g : Goroutine) :
  j <= i ->
  drop (S i) (elements src (<[j:=g]> arr)) = drop (S i) (elements src arr).
Proof.
intros Hji. destruct src as [gs|n]; simpl; [reflexivity|].
destruct (le_lt_dec n j) as [Hnj|Hjn].
- rewrite !drop_ge; [reflexivity| |]; rewrite length_take; lia.
- rewrite take_insert_lt by assumption.
  rewrite drop_insert. destruct (decide (S i <= j)); [lia|reflexivity].
Qed.

Lemma range_from_spec (p : Goroutine -> bool) (src : ranged) :
  forall todo i j arr,
    j <= i -> i + todo = ranged_len src -> ranged_len src <= length arr ->
    exists j' arr',
      range_from p src todo i j arr = (j', arr')
      /\ take j' arr'
         = (take j arr ++ List.filter p (drop i (elements src arr)))%list
      /\ length arr' = length arr
      /\ j' <= j + todo.
Proof.
induction todo as [|todo IH]; intros i j arr Hji Hlen Hcap.
- exists j, arr. simpl. split; [reflexivity|].
  rewrite drop_ge by (rewrite elements_length; lia).
  simpl. rewrite app_nil_r. auto with lia.
- simpl. rewrite ranged_get_elements.
  destruct (lookup_lt_is_Some_2 (elements src arr) i) as [g Hg].
  { rewrite elements_length; lia. }
  rewrite Hg, (drop_S _ _ _ Hg). simpl.
  destruct (p g) eqn:Hp.
  + destruct (IH (S i) (S j) (<[j:=g]> arr)) as (j' & arr' & Hrun & Htake & Hl & Hj');
      [lia|lia|rewrite length_insert; lia|].
    exists j', arr'. split; [assumption|].
    rewrite Htake, elements_insert_drop by assumption.
    rewrite (take_S_r _ _ g) by (apply list_lookup_insert_eq; lia).
    rewrite take_insert, <- app_assoc. simpl.
    destruct (decide (j < j)); [lia|].
    rewrite Hl, length_insert. repeat split; lia.
  + destruct (IH (S i) j arr) as (j' & arr' & Hrun & Htake & Hl & Hj');
      [lia|lia|assumption|].
    exists j', arr'. repeat split; auto; lia.
Qed.

(** The loop on the reused array computes [applyFilters]: it returns
    early exactly when [applyFilters] does, and otherwise ends with a
    slice that holds the candidates [applyFilters] gives. *)
Lemma run_filters_applyFilters (fs : list filter) :
  forall src arr,
    ranged_len src <= length arr ->
    match run_filters fs src arr with
    | None => applyFilters fs (elements src arr) = None
    | Some (src', arr') =>
      applyFilters fs (elements src arr) = Some (elements src' arr')
    end.
Proof.
induction fs as [|[p|p] fs IH]; intros src arr Hcap; simpl.
- reflexivity.
- destruct (range_from_spec p src (ranged_len src) 0 0 arr)
    as (j & arr' & Hrun & Htake & Hl & Hj); [lia|lia|assumption|].
  rewrite Hrun. rewrite take_0, drop_0 in Htake. simpl in Htake.
  rewrite <- Htake.
  assert (Hlen : length (take j arr') = j)
    by (rewrite length_take; lia).
  rewrite Hlen.
  destruct (Nat.eqb_spec j 0) as [->|Hj0]; [reflexivity|].
  specialize (IH (Reused j) arr'). simpl in IH. apply IH. lia.
- destruct (p (elements src arr)); simpl; [apply IH, Hcap|reflexivity].
Qed.
End SliceReuseFacts.

(** * Further properties of the package *)

(** ** The constructors *)

Lemma apply_opts_sizes (ds : list option_desc) :
  forall c0,
    Forall (fun d => (0 <= option_size d)%Z) ds ->
    apply_opts (map option_of ds) c0 =
    Returns {| filters0 := match last_filter_size ds with
                           | Some z => Some (Z.to_nat z)
                           | None => filters0 c0
                           end;
               buf0 := match last_buf_size ds with
                       | Some z => Some (Z.to_nat z)
                       | None => buf0 c0
                       end |}.
Proof.
induction ds as [|d ds IH]; intros c0 Hall.
- destruct c0. reflexivity.
- apply Forall_cons in Hall as [Hd Hall]. cbn [map apply_opts].
  destruct d as [z|z]; simpl in Hd;
    unfold option_of, WithFilterSize, WithBufSize, make_cap, make_len;
    destruct (Z.ltb_spec z 0) as [|_]; try lia;
    cbn [panics_bind]; rewrite (IH _ Hall); cbn [filters0 buf0];
    cbn [last_filter_size last_buf_size];
    destruct (last_filter_size ds), (last_buf_size ds); reflexivity.
Qed.

Lemma apply_opts_negative (ds : list option_desc) :
  forall c0,
    Exists (fun d => (option_size d < 0)%Z) ds ->
    exists msg, apply_opts (map option_of ds) c0 = Panic msg.
Proof.
induction ds as [|d ds IH]; intros c0 Hex.
- inversion Hex.
- cbn [map apply_opts].
  destruct (Z.ltb_spec (option_size d) 0) as [Hneg|Hpos].
  + destruct d as [z|z]; simpl in Hneg;
      unfold option_of, WithFilterSize, WithBufSize, make_cap, make_len;
      destruct (Z.ltb_spec z 0); try lia; simpl; eauto.
  + apply Exists_cons in Hex as [Hd|Hex]; [lia|].
    destruct d as [z|z]; simpl in Hpos;
      unfold option_of, WithFilterSize, WithBufSize, make_cap, make_len;
      destruct (Z.ltb_spec z 0); try lia; cbn [panics_bind];
      apply IH, Hex.
Qed.

(** X1. [NewCondition] on any list of [WithFilterSize] and [WithBufSize]
    options: when no size is negative it returns a condition without
    filters whose capacity is the size of the last [WithFilterSize]
    (10 when there is none) and whose buffer length is the size of the
    last [WithBufSize] (2^20 when there is none), earlier options of the
    same kind being overridden; when some size is negative it panics. *)
Theorem NewCondition_options (ds : list option_desc) :
  (Forall (fun d => (0 <= option_size d)%Z) ds ->
   NewCondition (map option_of ds) =
   Returns {| filters := [];
              filters_cap :=
                Z.to_nat (default defaultFilterSize (last_filter_size ds));
              buf := Z.to_nat (default defaultBufSize (last_buf_size ds)) |})
  /\ (Exists (fun d => (option_size d < 0)%Z) ds ->
      exists msg, NewCondition (map option_of ds) = Panic msg).
Proof.
unfold NewCondition. split.
- intros Hall. rewrite (apply_opts_sizes _ _ Hall).
  cbn [panics_bind filters0 buf0].
  destruct (last_filter_size ds), (last_buf_size ds); reflexivity.
- intros Hex.
  destruct (apply_opts_negative ds {| filters0 := None; buf0 := None |} Hex)
    as [msg ->].
  simpl. eauto.
Qed.

Section MoreFacts.
Context {World : Type} `{RT : Runtime World}.

(** ** The filter slice *)

(** X2. The capacity hint does what it is for: while the filters added
    fit in the capacity the condition has, [append] never regrows the
    slice (the capacity stays as it is); and, whenever [append]'s growth
    gives at least the room asked for, the slice never holds more filters
    than its capacity. *)
Theorem filter_capacity_hint (c : Condition) (fs : list filter) :
  (length (filters c) + length fs <= filters_cap c ->
   filters_cap (build c fs) = filters_cap c)
  /\ ((forall old need, need <= growslice old need) ->
      length (filters c) <= filters_cap c ->
      length (filters (build c fs)) <= filters_cap (build c fs)).
Proof.
unfold build. split; revert c.
- induction fs as [|f fs IH]; intros c Hroom; simpl in *; [reflexivity|].
  rewrite IH; simpl.
  + destruct (Nat.ltb_spec (length (filters c)) (filters_cap c));
      [reflexivity|lia].
  + rewrite length_app. simpl.
    destruct (Nat.ltb_spec (length (filters c)) (filters_cap c)); lia.
- induction fs as [|f fs IH]; intros c Hgrow Hinv; simpl; [assumption|].
  apply IH; [assumption|]. simpl. rewrite length_app. simpl.
  destruct (Nat.ltb_spec (length (filters c)) (filters_cap c)); [lia|].
  specialize (Hgrow (filters_cap c) (S (length (filters c)))). lia.
Qed.

(** ** What [Eval] returns *)

Lemma units_In (fs : list filter) (p : Goroutine -> bool) :
  In (FilterByGo p) fs -> In p (units fs).
Proof.
induction fs as [|[q|q] fs IH]; simpl; [tauto| |].
- intros [[= ->]|HIn]; [left; reflexivity|right; apply IH, HIn].
- intros [[=]|HIn]. apply IH, HIn.
Qed.

Lemma all_pass_In (ps : list (Goroutine -> bool)) (gs : list Goroutine)
      (g : Goroutine) (p : Goroutine -> bool) :
  In g (all_pass ps gs) -> In p ps -> p g = true.
Proof.
unfold all_pass. intros Hg Hp. apply filter_In in Hg as [_ Hall].
rewrite forallb_forall in Hall. apply Hall, Hp.
Qed.

Lemma applyFilters_all_pass (fs : list filter) :
  forall gs r,
    applyFilters fs gs = Some r -> r = all_pass (units fs) gs.
Proof.
induction fs as [|[p|p] fs IH]; intros gs r; simpl.
- intros [= <-]. symmetry. apply all_pass_nil.
- destruct (_ =? _)%nat; [discriminate|].
  intros Hr. rewrite all_pass_cons. apply IH, Hr.
- destruct (p gs); simpl; [apply IH|discriminate].
Qed.

(** What the filter loop did in an [Eval] that returned no error. *)
Lemma Eval_filter_loop (fuel : nat) (c : Condition) (w : World)
      (r : list Goroutine) (c' : Condition) (w' : World) :
  Condition_Eval fuel c w = Some ((r, None), c', w') ->
  exists out gs,
    capture fuel (buf c) w = Some (out, buf c', w')
    /\ stack_ParseDump out = (gs, None)
    /\ (applyFilters (filters c) gs = Some r
        \/ (applyFilters (filters c) gs = None /\ r = [])).
Proof.
intros HE. destruct (Eval_inv _ _ _ _ _ _ HE) as (out & Hc & Hr & _).
unfold eval_dump in Hr.
destruct (stack_ParseDump out) as [gs [msg|]] eqn:Hp; [discriminate|].
exists out, gs. do 2 (split; [reflexivity || assumption|]).
destruct (applyFilters (filters c) gs) as [cand|] eqn:Hf;
  injection Hr as ->; auto.
Qed.

(** X3. Whatever [Eval] returns without an error is a subsequence of the
    parsed snapshot; it is empty or exactly the goroutines of the
    snapshot that pass all unit predicates of the condition; so [Eval]
    never returns a goroutine that fails one of the unit predicates. *)
Theorem Eval_keeps_what_passes (fuel : nat) (c : Condition) (w : World)
        (r : list Goroutine) (c' : Condition) (w' : World) :
  Condition_Eval fuel c w = Some ((r, None), c', w') ->
  exists out gs,
    capture fuel (buf c) w = Some (out, buf c', w')
    /\ stack_ParseDump out = (gs, None)
    /\ sublist r gs
    /\ (r = [] \/ r = all_pass (units (filters c)) gs)
    /\ (forall g p, In g r -> In (FilterByGo p) (filters c) -> p g = true).
Proof.
intros HE.
destruct (Eval_filter_loop _ _ _ _ _ _ HE)
  as (out & gs & Hc & Hp & [Hf|[Hf ->]]).
- exists out, gs. do 2 (split; [assumption|]).
  pose proof (applyFilters_all_pass _ _ _ Hf) as Hall.
  split; [eapply applyFilters_sublist, Hf|]. split; [right; assumption|].
  intros g p Hg HIn. rewrite Hall in Hg.
  eapply all_pass_In; [exact Hg|]. apply units_In, HIn.
- exists out, gs. do 2 (split; [assumption|]).
  split; [apply sublist_nil_l|]. split; [left; reflexivity|].
  intros g p [].
Qed.

(** ** What [Wait] returns *)

Lemma polls_filters (start timeout : Z) (k : nat) s s' :
  polls start timeout k s s' -> filters (fst s') = filters (fst s).
Proof.
induction 1 as [s|k ef c w c1 w1 w2 s' HE _ _ IH]; [reflexivity|].
simpl in *. rewrite IH.
destruct (Eval_inv _ _ _ _ _ _ HE) as (_ & _ & _ & Hfs & _). exact Hfs.
Qed.

(** A result of [Wait] is the result of its last [Eval], or the timeout. *)
Lemma Wait_last_Eval (fuel : nat) (c : Condition) (timeout : Z) (w : World)
      r e c' w' :
  Condition_Wait fuel c timeout w = Some ((r, e), c', w') ->
  (r = [] /\ e = Some ErrTimeout)
  \/ (e <> Some ErrTimeout /\ (e <> None \/ r <> [])
      /\ exists ck wk,
           filters ck = filters c
           /\ Condition_Eval fuel ck wk = Some ((r, e), c', w')).
Proof.
unfold Condition_Wait. destruct (time_Now w) as [start w0]. intros HW.
apply Wait_loop_polls in HW as (k & ck & wk & _ & Hp & Ht).
apply Wait_turn_Done in Ht as [(Hne & HE & Hres)|([= -> ->] & _)].
- right. simpl in *. split; [assumption|]. split; [assumption|].
  exists ck, wk. split; [|assumption].
  apply (polls_filters _ _ _ _ _ Hp).
- left. auto.
Qed.

(** X4. [Wait] never reports success with nothing in hand: a nil error
    comes with at least one goroutine, an error comes with no goroutine,
    and a result without error is the result of an [Eval] of the same
    predicates. *)
Theorem Wait_result_shape (fuel : nat) (c : Condition) (timeout : Z)
        (w : World) (r : list Goroutine) (e : option error)
        (c' : Condition) (w' : World) :
  Condition_Wait fuel c timeout w = Some ((r, e), c', w') ->
  (e = None -> r <> [])
  /\ (e <> None -> r = [])
  /\ (e = None ->
      exists ck wk,
        filters ck = filters c
        /\ Condition_Eval fuel ck wk = Some ((r, None), c', w')).
Proof.
intros HW.
apply Wait_last_Eval in HW as [[-> ->]|(Hne & Hres & ck & wk & Hfs & HE)].
- split; [discriminate|]. split; [reflexivity|discriminate].
- split; [intros ->; destruct Hres; congruence|]. split.
  + destruct e as [err|]; [|congruence]. intros _.
    apply (Eval_error _ _ _ _ _ _ _ HE).
  + intros ->. eauto.
Qed.

(** ** The state predicates *)

Lemma state_in_In (cur : State) (states : list State) :
  state_in cur states = true <-> In cur states.
Proof.
induction states as [|s states IH]; simpl; [split; [discriminate|tauto]|].
destruct (State_eqb cur s) eqn:E.
- apply State_eqb_eq in E. subst. tauto.
- rewrite IH. split; [tauto|]. intros [->|HIn]; [|assumption].
  assert (State_eqb cur cur = true) by (apply State_eqb_eq; reflexivity).
  congruence.
Qed.

(** Every goroutine [Eval] or [Wait] returns passes every unit predicate
    of the condition. *)
Lemma result_passes (fuel : nat) (c : Condition) (timeout : Z) (w : World)
      r e c' w' :
  Condition_Eval fuel c w = Some ((r, e), c', w')
  \/ Condition_Wait fuel c timeout w = Some ((r, e), c', w') ->
  forall g p, In g r -> In (FilterByGo p) (filters c) -> p g = true.
Proof.
assert (HEv : forall ck wk,
          filters ck = filters c ->
          Condition_Eval fuel ck wk = Some ((r, e), c', w') ->
          forall g p, In g r -> In (FilterByGo p) (filters c) -> p g = true).
{ intros ck wk Hfs HE g p Hg HIn. destruct e as [err|].
  - destruct (Eval_error _ _ _ _ _ _ _ HE) as [-> _]. destruct Hg.
  - destruct (Eval_filter_loop _ _ _ _ _ _ HE)
      as (_ & gs & _ & _ & [Hf|[_ ->]]); [|destruct Hg].
    rewrite (applyFilters_all_pass _ _ _ Hf) in Hg.
    eapply all_pass_In; [exact Hg|]. apply units_In.
    rewrite Hfs. assumption. }
intros [HE|HW].
- apply (HEv c w eq_refl HE).
- apply Wait_last_Eval in HW as [[-> _]|(_ & _ & ck & wk & Hfs & HE)].
  + intros g p [].
  + apply (HEv ck wk Hfs HE).
Qed.

(** X5. [Is], [Not] and [In] append the predicates named [state_is],
    [state_not] and [state_among], and later builder calls keep them; and
    once a condition holds one of them, every goroutine [Eval] or [Wait]
    returns is in that state, is not in it, or is in one of the listed
    states, respectively. *)
Theorem state_filters_hold (c : Condition) (state : State)
        (states : list State) :
  (In (FilterByGo (state_is state)) (filters (Condition_Is c state))
   /\ In (FilterByGo (state_not state)) (filters (Condition_Not c state))
   /\ In (FilterByGo (state_among states)) (filters (Condition_In c states))
   /\ forall f f', In f (filters c) -> In f (filters (append_filter c f')))
  /\ forall fuel timeout w r e c' w',
       Condition_Eval fuel c w = Some ((r, e), c', w')
       \/ Condition_Wait fuel c timeout w = Some ((r, e), c', w') ->
       (In (FilterByGo (state_is state)) (filters c) ->
        Forall (fun g => NewState (Signature_State g) = state) r)
       /\ (In (FilterByGo (state_not state)) (filters c) ->
           Forall (fun g => NewState (Signature_State g) <> state) r)
       /\ (In (FilterByGo (state_among states)) (filters c) ->
           Forall (fun g => In (NewState (Signature_State g)) states) r).
Proof.
split.
- simpl. rewrite !in_app_iff. simpl.
  repeat split; try (right; left; reflexivity).
  intros f f' HIn. apply in_app_iff. left. assumption.
- intros fuel timeout w r e c' w' Hret.
  pose proof (result_passes _ _ _ _ _ _ _ _ Hret) as Hpass.
  repeat split; intros HIn; apply List.Forall_forall; intros g Hg;
    specialize (Hpass g _ Hg HIn); unfold state_is, state_not, state_among
    in Hpass; cbv zeta in Hpass.
  + apply State_eqb_eq in Hpass. congruence.
  + intros Heq. apply negb_true_iff in Hpass.
    assert (State_eqb state (NewState (Signature_State g)) = true)
      by (apply State_eqb_eq; congruence).
    congruence.
  + apply state_in_In, Hpass.
Qed.

(** X6. A condition that holds both [Is(s)] and [Not(s)], or [In()] with
    no state, matches nothing: [Eval] returns no goroutine on every
    snapshot, and [Wait] can only end with an error (the timeout or a
    parse error). *)
Theorem contradictory_filters (c : Condition) (state : State) :
  (In (FilterByGo (state_is state)) (filters c)
   /\ In (FilterByGo (state_not state)) (filters c))
  \/ In (FilterByGo (state_among [])) (filters c) ->
  forall fuel timeout w r e c' w',
    (Condition_Eval fuel c w = Some ((r, e), c', w') -> r = [])
    /\ (Condition_Wait fuel c timeout w = Some ((r, e), c', w') ->
        r = [] /\ e <> None).
Proof.
intros Hcontra fuel timeout w r e c' w'.
assert (Hnone : Condition_Eval fuel c w = Some ((r, e), c', w')
                \/ Condition_Wait fuel c timeout w = Some ((r, e), c', w')
                -> r = []).
{ intros Hret. pose proof (result_passes _ _ _ _ _ _ _ _ Hret) as Hpass.
  destruct r as [|g r]; [reflexivity|]. exfalso.
  destruct Hcontra as [[His Hnot]|Hamong].
  - pose proof (Hpass g _ (or_introl eq_refl) His) as H1.
    pose proof (Hpass g _ (or_introl eq_refl) Hnot) as H2.
    unfold state_is, state_not in *. cbv zeta in *.
    rewrite H1 in H2. discriminate.
  - pose proof (Hpass g _ (or_introl eq_refl) Hamong) as H1.
    discriminate H1. }
split; [auto|]. intros HW. pose proof (Hnone (or_intror HW)) as ->.
split; [reflexivity|].
apply Wait_last_Eval in HW as [[_ ->]|(_ & [He|Hr] & _)];
  [discriminate|assumption|congruence].
Qed.

(** ** The count predicates *)

Lemma last_set_holds (c cc : Condition) (p : list Goroutine -> bool)
      (fuel : nat) (timeout : Z) (w : World) r c' w' :
  filters cc = (filters c ++ [FilterByGoes p])%list ->
  Condition_Eval fuel cc w = Some ((r, None), c', w')
  \/ Condition_Wait fuel cc timeout w = Some ((r, None), c', w') ->
  r <> [] -> p r = true.
Proof.
intros Hfs Hret Hr.
assert (HEv : forall ck wk,
          filters ck = filters cc ->
          Condition_Eval fuel ck wk = Some ((r, None), c', w') ->
          p r = true).
{ intros ck wk Hck HE.
  destruct (Eval_inv _ _ _ _ _ _ HE) as (out & _ & Hres & _).
  rewrite Hck, Hfs in Hres. unfold eval_dump in Hres.
  destruct (stack_ParseDump out) as [gs [msg|]]; [discriminate|].
  rewrite applyFilters_app in Hres.
  destruct (applyFilters (filters c) gs) as [cand|]; simpl in Hres;
    [|congruence].
  destruct (p cand) eqn:Hp; simpl in Hres; congruence. }
destruct Hret as [HE|HW].
- apply (HEv cc w eq_refl HE).
- apply Wait_last_Eval in HW as [[_ [=]]|(_ & _ & ck & wk & Hck & HE)].
  apply (HEv ck wk Hck HE).
Qed.

(** X7. A count predicate added last is met by what comes back: after
    [EQ(v)], [GT(v)] or [LT(v)] as the final builder call, every non-empty
    result of [Eval] or [Wait] has exactly [v], more than [v], or fewer
    than [v] goroutines. *)
Theorem count_added_last_holds (c : Condition) (v : Z) :
  forall fuel timeout w r c' w',
    r <> [] ->
    (Condition_Eval fuel (Condition_EQ c v) w = Some ((r, None), c', w')
     \/ Condition_Wait fuel (Condition_EQ c v) timeout w
        = Some ((r, None), c', w') ->
     Z.of_nat (length r) = v)
    /\ (Condition_Eval fuel (Condition_GT c v) w = Some ((r, None), c', w')
        \/ Condition_Wait fuel (Condition_GT c v) timeout w
           = Some ((r, None), c', w') ->
        (v < Z.of_nat (length r))%Z)
    /\ (Condition_Eval fuel (Condition_LT c v) w = Some ((r, None), c', w')
        \/ Condition_Wait fuel (Condition_LT c v) timeout w
           = Some ((r, None), c', w') ->
        (Z.of_nat (length r) < v)%Z).
Proof.
intros fuel timeout w r c' w' Hr. repeat split; intros Hret.
- apply Z.eqb_eq.
  apply (last_set_holds c (Condition_EQ c v)
           (fun gs => (Z.of_nat (length gs) =? v)%Z)
           _ _ _ _ _ _ eq_refl Hret Hr).
- apply Z.gt_lt, Z.gtb_gt.
  apply (last_set_holds c (Condition_GT c v)
           (fun gs => (Z.of_nat (length gs) >? v)%Z)
           _ _ _ _ _ _ eq_refl Hret Hr).
- apply Z.ltb_lt.
  apply (last_set_holds c (Condition_LT c v)
           (fun gs => (Z.of_nat (length gs) <? v)%Z)
           _ _ _ _ _ _ eq_refl Hret Hr).
Qed.

(** X8. The package cannot wait for the absence of goroutines: with
    [EQ(v)] for [v <= 0] or [LT(v)] for [v <= 1] as the final builder
    call, [Eval] returns no goroutine on every snapshot and [Wait] never
    returns without an error. *)
Theorem cannot_wait_for_none (c : Condition) (v : Z) :
  forall fuel timeout w r e c' w',
    ((v <= 0)%Z ->
     (Condition_Eval fuel (Condition_EQ c v) w = Some ((r, e), c', w') ->
      r = [])
     /\ (Condition_Wait fuel (Condition_EQ c v) timeout w
         = Some ((r, e), c', w') -> e <> None))
    /\ ((v <= 1)%Z ->
        (Condition_Eval fuel (Condition_LT c v) w = Some ((r, e), c', w') ->
         r = [])
        /\ (Condition_Wait fuel (Condition_LT c v) timeout w
            = Some ((r, e), c', w') -> e <> None)).
Proof.
intros fuel timeout w r e c' w'.
assert (Hnil : forall cc p,
          filters cc = (filters c ++ [FilterByGoes p])%list ->
          (forall gs, gs <> [] -> p gs = false) ->
          (Condition_Eval fuel cc w = Some ((r, e), c', w') -> r = [])
          /\ (Condition_Wait fuel cc timeout w = Some ((r, e), c', w') ->
              e <> None)).
{ intros cc p Hfs Hp. split.
  - intros HE. destruct e as [err|].
    + apply (Eval_error _ _ _ _ _ _ _ HE).
    + destruct r as [|g r]; [reflexivity|].
      pose proof (last_set_holds c cc p fuel timeout w _ _ _ Hfs
                    (or_introl HE) ltac:(discriminate)) as Hholds.
      rewrite Hp in Hholds by discriminate. discriminate.
  - intros HW ->. pose proof HW as HW'.
    apply Wait_last_Eval in HW'
      as [[_ [=]]|(_ & [He|Hr] & _)]; [congruence|].
    pose proof (last_set_holds c cc p fuel timeout w _ _ _ Hfs
                  (or_intror HW) Hr) as Hholds.
    rewrite Hp in Hholds by assumption. discriminate. }
split; intros Hv.
- apply (Hnil (Condition_EQ c v)
              (fun gs => (Z.of_nat (length gs) =? v)%Z) eq_refl).
  intros [|g gs] Hgs; [congruence|]. apply Z.eqb_neq. simpl. lia.
- apply (Hnil (Condition_LT c v)
              (fun gs => (Z.of_nat (length gs) <? v)%Z) eq_refl).
  intros [|g gs] Hgs; [congruence|]. apply Z.ltb_ge. simpl. lia.
Qed.

(** ** The snapshot buffer *)

Lemma capture_grows (fuel : nat) :
  forall len w out len' w',
    capture fuel len w = Some (out, len', w') ->
    exists k, k < fuel /\ len' = len * 2 ^ k /\ String.length out < len'.
Proof.
induction fuel as [|fuel IH]; intros len w out len' w' Hc; [discriminate|].
rewrite capture_unfold in Hc.
pose proof (runtime_Stack_le w len) as Hle.
destruct (Nat.eqb_spec (String.length (fst (runtime_Stack w len))) len)
  as [Heq|Hne].
- destruct (IH _ _ _ _ _ Hc) as (k & Hk & -> & Hout).
  exists (S k). rewrite Nat.pow_succ_r'. repeat split; lia.
- injection Hc as <- <- <-. exists 0. rewrite Nat.pow_0_r.
  repeat split; lia.
Qed.

Lemma polls_buf (start timeout : Z) (k : nat) s s' :
  polls start timeout k s s' ->
  exists j, buf (fst s') = buf (fst s) * 2 ^ j.
Proof.
induction 1 as [s|k ef c w c1 w1 w2 s' HE _ _ IH].
- exists 0. rewrite Nat.pow_0_r. lia.
- destruct IH as (j & Hj). simpl in *.
  destruct (Eval_inv _ _ _ _ _ _ HE) as (out & Hc & _).
  destruct (capture_grows _ _ _ _ _ _ Hc) as (i & _ & Hi & _).
  exists (i + j). rewrite Hj, Hi, Nat.pow_add_r. lia.
Qed.

(** X9. The buffer of a condition only grows, by doubling: after [Eval]
    or [Wait] returns, the buffer length is the old one times a power of
    two and is positive, and the filters and their capacity are as
    before. *)
Theorem buffer_only_doubles (fuel : nat) (c : Condition) (timeout : Z)
        (w : World) (r : result) (c' : Condition) (w' : World) :
  Condition_Eval fuel c w = Some (r, c', w')
  \/ Condition_Wait fuel c timeout w = Some (r, c', w') ->
  filters c' = filters c
  /\ filters_cap c' = filters_cap c
  /\ 0 < buf c'
  /\ exists k, buf c' = buf c * 2 ^ k.
Proof.
assert (HEv : forall ck wk,
          Condition_Eval fuel ck wk = Some (r, c', w') ->
          filters c' = filters ck /\ filters_cap c' = filters_cap ck
          /\ 0 < buf c' /\ exists k, buf c' = buf ck * 2 ^ k).
{ intros ck wk HE.
  destruct (Eval_inv _ _ _ _ _ _ HE) as (out & Hc & _ & Hfs & Hcap).
  destruct (capture_grows _ _ _ _ _ _ Hc) as (k & _ & Hk & Hout).
  repeat split; [assumption|assumption|lia|eauto]. }
intros [HE|HW]; [apply (HEv c w HE)|].
unfold Condition_Wait in HW. destruct (time_Now w) as [start w0].
apply Wait_loop_polls in HW as (k & ck & wk & _ & Hp & Ht).
pose proof (polls_filters _ _ _ _ _ Hp) as Hfs.
destruct (polls_buf _ _ _ _ _ Hp) as (j & Hj). simpl in *.
assert (Hcap : filters_cap ck = filters_cap c).
{ clear Ht Hfs Hj. remember (c, w0) as s eqn:Hs.
  remember (ck, wk) as s' eqn:Hs'.
  revert c w0 Hs. induction Hp as [s|n ef ca wa c1 w1 w2 s' HE _ _ IH];
    intros c w0 Hs; subst.
  - injection Hs as -> ->. reflexivity.
  - injection Hs as -> ->.
    destruct (Eval_inv _ _ _ _ _ _ HE) as (_ & _ & _ & _ & Hcap1).
    rewrite <- Hcap1. apply (IH eq_refl _ _ eq_refl). }
unfold Wait_turn in Ht.
destruct (Condition_Eval fuel ck wk) as [[[r1 c1] w1]|] eqn:HE;
  [|discriminate].
injection Ht as Ht. destruct r1 as [gs e].
apply Wait_check_Done in Ht as (-> & _).
destruct (Eval_inv _ _ _ _ _ _ HE) as (out & Hc & _ & Hfs1 & Hcap1).
destruct (capture_grows _ _ _ _ _ _ Hc) as (i & _ & Hi & Hout).
repeat split; [congruence|congruence|lia|].
exists (j + i). rewrite Hi, Hj, Nat.pow_add_r. lia.
Qed.

(** X10. The grown buffer is kept for the next call: on a dump that
    stands still, an [Eval] run again on the condition an [Eval] left
    needs a single [runtime.Stack] call, returns the same result and
    leaves the condition as it is. *)
Theorem Eval_again_single_call (dump : World -> string) (fuel : nat)
        (c : Condition) (w : World) (r : result) (c' : Condition)
        (w' : World) :
  stable_dump dump ->
  Condition_Eval fuel c w = Some (r, c', w') ->
  Condition_Eval 1 c' w' = Some (r, c', w').
Proof.
intros Hst HE.
destruct (Eval_inv _ _ _ _ _ _ HE) as (out & Hc & -> & Hfs & Hcap).
destruct (capture_grows _ _ _ _ _ _ Hc) as (k & _ & Hk & Hout).
assert (Hpos : 0 < buf c).
{ destruct (buf c) eqn:Hb; [|lia]. rewrite capture_zero in Hc.
  discriminate. }
destruct (capture_stable_inv dump Hst _ _ _ _ _ _ Hpos Hc) as (-> & -> & _).
assert (Hone : capture 1 (buf c') w = Some (dump w, buf c', w)).
{ rewrite capture_unfold, !(Hst w (buf c')). simpl.
  rewrite substring_0_all by lia.
  destruct (Nat.eqb_spec (String.length (dump w)) (buf c')); [lia|].
  reflexivity. }
rewrite (Eval_capture _ _ _ _ _ _ Hone), Hfs. destruct c'. simpl in *.
subst. reflexivity.
Qed.

(** ** Conditions with the same filter loop *)

Lemma Eval_agree (fuel : nat) (c1 c2 : Condition) (w : World) :
  buf c1 = buf c2 ->
  (forall gs, applyFilters (filters c1) gs = applyFilters (filters c2) gs) ->
  match Condition_Eval fuel c1 w, Condition_Eval fuel c2 w with
  | Some (r1, c1', w1), Some (r2, c2', w2) =>
    r1 = r2 /\ w1 = w2 /\ buf c1' = buf c2'
    /\ filters c1' = filters c1 /\ filters c2' = filters c2
  | None, None => True
  | _, _ => False
  end.
Proof.
intros Hbuf Hfs. unfold Condition_Eval. rewrite Hbuf.
destruct (capture fuel (buf c2) w) as [[[out len'] w']|]; [|exact I].
destruct (stack_ParseDump out) as [gs [e|]]; [simpl; auto|].
rewrite Hfs. destruct (applyFilters (filters c2) gs); simpl; auto.
Qed.

Lemma Wait_loop_agree (efuel fuel : nat) (start timeout : Z) :
  forall (c1 c2 : Condition) (w : World),
    buf c1 = buf c2 ->
    (forall gs, applyFilters (filters c1) gs = applyFilters (filters c2) gs) ->
    observe (Wait_loop efuel fuel start timeout c1 w)
    = observe (Wait_loop efuel fuel start timeout c2 w).
Proof.
induction fuel as [|fuel IH]; intros c1 c2 w Hbuf Hfs; [reflexivity|].
simpl. unfold Wait_turn.
pose proof (Eval_agree efuel c1 c2 w Hbuf Hfs) as Hag.
destruct (Condition_Eval efuel c1 w) as [[[r1 c1'] w1]|],
         (Condition_Eval efuel c2 w) as [[[r2 c2'] w2]|];
  try contradiction; [|reflexivity].
destruct Hag as (-> & -> & Hbuf' & Hf1 & Hf2).
pose proof (Wait_check_cond start timeout r2 c1' c2' w2) as Hturn.
destruct (Wait_check start timeout r2 c1' w2) as [r ca wa|ca wa];
  destruct Hturn as [-> ->]; [reflexivity|].
apply IH; [assumption|]. intros gs. rewrite Hf1, Hf2. apply Hfs.
Qed.

(** X11. [Wait], too, gives the same result when neighbouring predicates
    of the same kind change places (unit with unit, set with set): for
    every fuel, timeout and world, the two conditions return alike or
    both do not return. *)
Theorem Wait_reorder (c1 c2 : Condition) (fuel : nat) (timeout : Z)
        (w : World) :
  buf c1 = buf c2 ->
  reorder (filters c1) (filters c2) ->
  observe (Condition_Wait fuel c1 timeout w)
  = observe (Condition_Wait fuel c2 timeout w).
Proof.
intros Hbuf Hre. unfold Condition_Wait. destruct (time_Now w) as [start w0].
apply Wait_loop_agree; [assumption|].
apply applyFilters_reorder, Hre.
Qed.

Lemma applyFilters_snoc (fs : list filter) (f : filter)
      (gs : list Goroutine) :
  applyFilters (fs ++ [f]) gs =
  match applyFilters fs gs with
  | None => None
  | Some cand => applyFilter f cand
  end.
Proof.
rewrite applyFilters_app. destruct (applyFilters fs gs) as [cand|];
  [|reflexivity].
simpl. destruct (applyFilter f cand); reflexivity.
Qed.

(** X12. How the count predicates compose: [EQ(v)] behaves as [GT(v - 1)]
    followed by [LT(v + 1)], and [GT(v)] with a negative [v] changes
    nothing, in [Eval] and in [Wait] alike. *)
Theorem count_predicates_compose (c : Condition) (v : Z) (fuel : nat)
        (timeout : Z) (w : World) :
  (observe (Condition_Eval fuel (Condition_EQ c v) w)
   = observe (Condition_Eval fuel
                (Condition_LT (Condition_GT c (v - 1)) (v + 1)) w)
   /\ observe (Condition_Wait fuel (Condition_EQ c v) timeout w)
      = observe (Condition_Wait fuel
                   (Condition_LT (Condition_GT c (v - 1)) (v + 1))
                   timeout w))
  /\ ((v < 0)%Z ->
      observe (Condition_Eval fuel (Condition_GT c v) w)
      = observe (Condition_Eval fuel c w)
      /\ observe (Condition_Wait fuel (Condition_GT c v) timeout w)
         = observe (Condition_Wait fuel c timeout w)).
Proof.
assert (Heq : forall gs,
          applyFilters (filters (Condition_EQ c v)) gs
          = applyFilters
              (filters (Condition_LT (Condition_GT c (v - 1)) (v + 1))) gs).
{ intros gs. simpl. rewrite !applyFilters_snoc.
  destruct (applyFilters (filters c) gs) as [cand|]; [|reflexivity].
  simpl.
  destruct (Z.eqb_spec (Z.of_nat (length cand)) v),
           (Z.gtb_spec (Z.of_nat (length cand)) (v - 1)); simpl; try lia;
    try reflexivity;
    destruct (Z.ltb_spec (Z.of_nat (length cand)) (v + 1)); simpl;
    try lia; reflexivity. }
split; [split|intros Hv; split].
- apply Eval_same_filters; [reflexivity|exact Heq].
- unfold Condition_Wait. destruct (time_Now w) as [start w0].
  apply Wait_loop_agree; [reflexivity|exact Heq].
- apply Eval_same_filters; [reflexivity|]. intros gs. simpl.
  rewrite applyFilters_snoc.
  destruct (applyFilters (filters c) gs) as [cand|]; [|reflexivity].
  simpl. destruct (Z.gtb_spec (Z.of_nat (length cand)) v); [reflexivity|lia].
- unfold Condition_Wait. destruct (time_Now w) as [start w0].
  apply Wait_loop_agree; [reflexivity|]. intros gs. simpl.
  rewrite applyFilters_snoc.
  destruct (applyFilters (filters c) gs) as [cand|]; [|reflexivity].
  simpl. destruct (Z.gtb_spec (Z.of_nat (length cand)) v); [reflexivity|lia].
Qed.

(** ** The deadline *)

Lemma Wait_loop_unfold (efuel fuel : nat) (start timeout : Z)
      (c : Condition) (w : World) :
  Wait_loop efuel (S fuel) start timeout c w =
  match Wait_turn efuel start timeout c w with
  | None => None
  | Some (Done r c' w') => Some (r, c', w')
  | Some (Again c' w') => Wait_loop efuel fuel start timeout c' w'
  end.
Proof. reflexivity. Qed.

Lemma Wait_loop_times_out (dump : World -> string) (Hst : stable_dump dump)
      (start timeout : Z) (Hpos : (0 < timeout)%Z) (N : nat) :
  forall (c : Condition) (w0 : World),
    0 < buf c ->
    (forall n, n <= N ->
       eval_dump (filters c) (dump (attempt_world n w0)) = ([], None)) ->
    (timeout < fst (time_Now (attempt_world N w0)) - start)%Z ->
    exists efuel c' w',
      Wait_loop efuel (S N) start timeout c w0
      = Some (([], Some ErrTimeout), c', w').
Proof.
induction N as [|N IH]; intros c w0 Hbuf Hempty Hlate.
- destruct (Eval_stable dump Hst c w0 Hbuf) as (fuel0 & len' & _ & HE).
  pose proof (Hempty 0 (Nat.le_refl _)) as H0. cbn [attempt_world] in H0.
  exists fuel0. simpl. unfold Wait_turn.
  rewrite (HE fuel0 (Nat.le_refl _)), H0.
  simpl in Hlate. unfold Wait_check. simpl.
  destruct (Z.gtb_spec timeout 0); [|lia].
  destruct (time_Now w0) as [now w1]. simpl in Hlate.
  destruct (Z.gtb_spec (now - start) timeout); [|lia]. eauto.
- destruct (Eval_stable dump Hst c w0 Hbuf) as (fuel0 & len' & Hlen & HE).
  set (c1 := {| filters := filters c; filters_cap := filters_cap c;
                buf := len' |}) in *.
  destruct (IH c1 (next_attempt w0)) as (ef & c' & w' & HW).
  { simpl. lia. }
  { intros n Hn. apply (Hempty (S n)). lia. }
  { exact Hlate. }
  pose proof (HE (Nat.max fuel0 ef) ltac:(lia)) as HE1.
  pose proof (Hempty 0 ltac:(lia)) as H0. cbn [attempt_world] in H0.
  exists (Nat.max fuel0 ef).
  rewrite (Wait_loop_unfold _ (S N)). unfold Wait_turn.
  rewrite HE1, H0.
  unfold Wait_check. cbn [length Nat.ltb Nat.leb].
  destruct (Z.gtb_spec timeout 0); [|lia].
  unfold next_attempt in HW.
  destruct (time_Now w0) as [now w1]. cbn [snd] in HW.
  destruct (Z.gtb_spec (now - start) timeout); [eauto|].
  exists c', w'.
  apply (Wait_loop_mono ef _ (S N) _ _ _ _ _ _ HW); lia.
Qed.

(** X13. [Wait] with a positive timeout gives up in bounded time: on a
    dump that stands still during each capture, when the first [N + 1]
    attempts find nothing and the clock read after attempt [N] is more
    than [timeout] past the start, [Wait] returns [ErrTimeout], after at
    most [N + 1] calls of [Eval]. *)
Theorem Wait_times_out (dump : World -> string) (c : Condition)
        (timeout : Z) (w : World) (N : nat) :
  stable_dump dump ->
  0 < buf c ->
  (0 < timeout)%Z ->
  (forall n, n <= N ->
     eval_dump (filters c) (dump (attempt_world n (snd (time_Now w))))
     = ([], None)) ->
  (timeout < fst (time_Now (attempt_world N (snd (time_Now w))))
             - fst (time_Now w))%Z ->
  (exists efuel c' w',
     Wait_loop efuel (S N) (fst (time_Now w)) timeout c (snd (time_Now w))
     = Some (([], Some ErrTimeout), c', w'))
  /\ exists fuel c' w',
       Condition_Wait fuel c timeout w
       = Some (([], Some ErrTimeout), c', w').
Proof.
intros Hst Hbuf Hpos Hempty Hlate.
destruct (Wait_loop_times_out dump Hst _ _ Hpos N c _ Hbuf Hempty Hlate)
  as (ef & c' & w' & HW).
split; [eauto|].
exists (Nat.max ef (S N)), c', w'. unfold Condition_Wait.
destruct (time_Now w) as [start w0]. simpl in *.
apply (Wait_loop_mono ef _ (S N) _ _ _ _ _ _ HW); lia.
Qed.

(** ** More on the state predicates *)

Lemma Eval_same_last_unit (c : Condition) (p q : Goroutine -> bool)
      (fuel : nat) (timeout : Z) (w : World) :
  (forall g, p g = q g) ->
  observe (Condition_Eval fuel (append_filter c (FilterByGo p)) w)
  = observe (Condition_Eval fuel (append_filter c (FilterByGo q)) w)
  /\ observe (Condition_Wait fuel (append_filter c (FilterByGo p)) timeout w)
     = observe (Condition_Wait fuel (append_filter c (FilterByGo q))
                               timeout w).
Proof.
intros Hext.
assert (Heq : forall gs,
          applyFilters (filters (append_filter c (FilterByGo p))) gs
          = applyFilters (filters (append_filter c (FilterByGo q))) gs).
{ intros gs. simpl. rewrite !applyFilters_snoc.
  destruct (applyFilters (filters c) gs) as [cand|]; [|reflexivity].
  simpl. rewrite (filter_ext p q Hext). reflexivity. }
split.
- apply Eval_same_filters; [reflexivity|exact Heq].
- unfold Condition_Wait. destruct (time_Now w) as [start w0].
  apply Wait_loop_agree; [reflexivity|exact Heq].
Qed.

(** X14. [In] looks only at which states are listed: two lists with the
    same members (in any order, with or without repeats) give the same
    [Eval] and [Wait], and [In(s)] with a single state behaves as
    [Is(s)]. *)
Theorem In_depends_on_members (c : Condition) (states1 states2 : list State)
        (state : State) (fuel : nat) (timeout : Z) (w : World) :
  ((forall s, In s states1 <-> In s states2) ->
   observe (Condition_Eval fuel (Condition_In c states1) w)
   = observe (Condition_Eval fuel (Condition_In c states2) w)
   /\ observe (Condition_Wait fuel (Condition_In c states1) timeout w)
      = observe (Condition_Wait fuel (Condition_In c states2) timeout w))
  /\ (observe (Condition_Eval fuel (Condition_In c [state]) w)
      = observe (Condition_Eval fuel (Condition_Is c state) w)
      /\ observe (Condition_Wait fuel (Condition_In c [state]) timeout w)
         = observe (Condition_Wait fuel (Condition_Is c state) timeout w)).
Proof.
split.
- intros Hmem. apply Eval_same_last_unit. intros g. cbv zeta.
  destruct (state_in (NewState (Signature_State g)) states1) eqn:E1,
           (state_in (NewState (Signature_State g)) states2) eqn:E2;
    try reflexivity.
  + apply state_in_In, Hmem, state_in_In in E1. congruence.
  + apply state_in_In, Hmem, state_in_In in E2. congruence.
- apply Eval_same_last_unit. intros g. cbv zeta. simpl.
  destruct (State_eqb (NewState (Signature_State g)) state) eqn:E1,
           (State_eqb state (NewState (Signature_State g))) eqn:E2;
    try reflexivity.
  + apply State_eqb_eq in E1.
    assert (State_eqb state (NewState (Signature_State g)) = true)
      by (apply State_eqb_eq; congruence).
    congruence.
  + apply State_eqb_eq in E2.
    assert (State_eqb (NewState (Signature_State g)) state = true)
      by (apply State_eqb_eq; congruence).
    congruence.
Qed.

(** X15. [Not(s)] is the exact complement of [Is(s)] on every snapshot:
    each goroutine passes one of the two predicates and not the other, so
    the two filtered snapshots have no member in common and their sizes
    add up to the size of the snapshot. *)
Theorem Is_Not_partition (state : State) (gs : list Goroutine) :
  (forall g, state_not state g = negb (state_is state g))
  /\ length (List.filter (state_is state) gs)
     + length (List.filter (state_not state) gs) = length gs
  /\ (forall g, In g gs ->
        In g (List.filter (state_is state) gs)
        \/ In g (List.filter (state_not state) gs))
  /\ (forall g, In g (List.filter (state_is state) gs) ->
        ~ In g (List.filter (state_not state) gs)).
Proof.
split; [reflexivity|]. split; [|split].
- induction gs as [|g gs IH]; [reflexivity|]. simpl.
  unfold state_not at 1, state_is at 1. cbv zeta.
  destruct (State_eqb state (NewState (Signature_State g))); simpl; lia.
- intros g Hg. rewrite !filter_In.
  unfold state_not, state_is. cbv zeta.
  destruct (State_eqb state (NewState (Signature_State g))); simpl; auto.
- intros g. rewrite !filter_In. unfold state_not, state_is. cbv zeta.
  intros [_ ->] [_ Hneg]. discriminate.
Qed.
End MoreFacts.

(** ** Errors, and waiting without a deadline *)

Section ErrorsAndForever.
Context {World : Type} `{RT : Runtime World}.

(** X19. Filters neither cause nor hide errors: two conditions with the
    same buffer length, whatever their filters, get from [Eval] the same
    error (or none), leave the same world and the same buffer length, and
    either both return or both do not. *)
Theorem Eval_error_ignores_filters (c1 c2 : Condition) (fuel : nat)
        (w : World) :
  buf c1 = buf c2 ->
  match Condition_Eval fuel c1 w, Condition_Eval fuel c2 w with
  | Some ((_, e1), c1', w1), Some ((_, e2), c2', w2) =>
    e1 = e2 /\ w1 = w2 /\ buf c1' = buf c2'
  | None, None => True
  | _, _ => False
  end.
Proof.
intros Hbuf. unfold Condition_Eval. rewrite Hbuf.
destruct (capture fuel (buf c2) w) as [[[out len'] w']|]; [|exact I].
destruct (stack_ParseDump out) as [gs [e|]]; [simpl; auto|].
destruct (applyFilters (filters c1) gs), (applyFilters (filters c2) gs);
  simpl; auto.
Qed.

Lemma Wait_loop_forever (dump : World -> string) (Hst : stable_dump dump)
      (start timeout : Z) (Hnon : (timeout <= 0)%Z) (efuel fuel : nat) :
  forall (c : Condition) (w0 : World),
    0 < buf c ->
    (forall n,
       eval_dump (filters c) (dump (Nat.iter n runtime_Gosched w0))
       = ([], None)) ->
    Wait_loop efuel fuel start timeout c w0 = None.
Proof.
induction fuel as [|fuel IH]; intros c w0 Hbuf Hempty; [reflexivity|].
rewrite Wait_loop_unfold. unfold Wait_turn.
destruct (Condition_Eval efuel c w0) as [[[r c1] w1]|] eqn:HE;
  [|reflexivity].
destruct (Eval_stable_inv dump Hst _ _ _ _ _ _ Hbuf HE)
  as (-> & -> & Hfs & Hb1).
pose proof (Hempty 0) as H0. simpl in H0. rewrite H0.
unfold Wait_check. simpl.
destruct (Z.gtb_spec timeout 0); [lia|].
apply IH; [assumption|]. intros n. rewrite Hfs, <- Nat.iter_succ_r.
apply Hempty.
Qed.

(** X20. A non-positive timeout means no deadline: on a dump that stands
    still during each capture, while every attempt finds nothing and the
    parser does not fail, [Wait] with [timeout <= 0] does not return,
    however long it runs. *)
Theorem Wait_forever (dump : World -> string) (c : Condition)
        (timeout : Z) (w : World) :
  stable_dump dump ->
  (timeout <= 0)%Z ->
  0 < buf c ->
  (forall n,
     eval_dump (filters c)
               (dump (Nat.iter n runtime_Gosched (snd (time_Now w))))
     = ([], None)) ->
  forall fuel, Condition_Wait fuel c timeout w = None.
Proof.
intros Hst Hnon Hbuf Hempty fuel. unfold Condition_Wait.
destruct (time_Now w) as [start w0]. simpl in Hempty.
apply (Wait_loop_forever dump Hst); assumption.
Qed.
End ErrorsAndForever.

(** X21. The two constructors of the package's two versions agree:
    [NewConditionWithConfig(f, b)] is [NewCondition(WithFilterSize(f),
    WithBufSize(b))] for all sizes, negative ones included (both panic,
    on the same [make]), and the old parameterless [NewCondition()] is
    the new one without options. *)
Theorem constructors_agree (filterSize bufSize : Z) :
  NewConditionWithConfig filterSize bufSize
  = NewCondition [WithFilterSize filterSize; WithBufSize bufSize]
  /\ NewCondition_default = NewCondition [].
Proof.
split.
- unfold NewConditionWithConfig, NewCondition, WithFilterSize, WithBufSize,
    make_cap, make_len. cbn [apply_opts panics_bind filters0 buf0].
  destruct (filterSize <? 0)%Z; [reflexivity|]. cbn [panics_bind filters0 buf0].
  destruct (bufSize <? 0)%Z; reflexivity.
- unfold NewCondition_default, NewConditionWithConfig, NewCondition,
    make_cap, make_len. cbn [apply_opts panics_bind filters0 buf0].
  assert (H1 : (defaultFilterSize <? 0)%Z = false) by reflexivity.
  assert (H2 : (defaultBufSize <? 0)%Z = false) by reflexivity.
  rewrite H1. cbn [panics_bind]. rewrite H2. reflexivity.
Qed.

(** ** The creation-site predicate in results *)

Section CreatedByResults.
Context {World : Type} `{RT : Runtime World}.
Context {Regexp : Type} `{RE : RegexpEngine Regexp}.

(** X16. After [CreatedBy(pat)] with a pattern that compiles, and
    whatever builder calls follow, every goroutine [Eval] or [Wait]
    returns has a creator whose name the compiled pattern matches. *)
Theorem CreatedBy_results_match (c c1 : Condition) (pat : string)
        (re : Regexp) (more : list filter) :
  regexp_Compile pat = Some re ->
  Condition_CreatedBy c pat = Returns c1 ->
  forall fuel timeout w r e c' w',
    Condition_Eval fuel (build c1 more) w = Some ((r, e), c', w')
    \/ Condition_Wait fuel (build c1 more) timeout w
       = Some ((r, e), c', w') ->
    Forall (fun g =>
              Regexp_Match re (Signature_CreatedBy_PkgDotName g) = true) r.
Proof.
intros Hre Hc1 fuel timeout w r e c' w' Hret.
unfold Condition_CreatedBy, regexp_MustCompile in Hc1. rewrite Hre in Hc1.
simpl in Hc1. injection Hc1 as <-.
apply List.Forall_forall. intros g Hg.
apply (result_passes _ _ _ _ _ _ _ _ Hret g
         (fun g => Regexp_Match re (Signature_CreatedBy_PkgDotName g)) Hg).
rewrite (proj1 (build_filters _ more)). simpl.
rewrite !in_app_iff. left. right. left. reflexivity.
Qed.
End CreatedByResults.

(** ** The reused array as [Eval] sets it up *)

Section SliceReuseAtStart.
Import SliceReuse.

Lemma run_filters_length (fs : list filter) :
  forall src arr src' arr',
    ranged_len src <= length arr ->
    run_filters fs src arr = Some (src', arr') ->
    length arr' = length arr /\ ranged_len src' <= length arr'.
Proof.
induction fs as [|[p|p] fs IH]; intros src arr src' arr' Hcap; simpl.
- intros [= <- <-]. auto.
- destruct (range_from_spec p src (ranged_len src) 0 0 arr)
    as (j & arr1 & Hrun & _ & Hl & Hj); [lia|lia|assumption|].
  rewrite Hrun. destruct (j =? 0)%nat; [discriminate|].
  intros Hrest. destruct (IH (Reused j) arr1 src' arr') as [H1 H2];
    [simpl; lia|assumption|].
  split; [congruence|assumption].
- destruct (p (elements src arr)); simpl; [|discriminate].
  apply IH, Hcap.
Qed.

(** X17. Reusing one array for [ngs] across the unit filters is safe:
    started as [Eval] starts it (the parsed snapshot in [gs], a fresh
    array of [len(gs)] cells behind [ngs]), the loop that filters in
    place returns early exactly when the functional filter loop does,
    and otherwise ends with a slice holding exactly its candidates, in an
    array that never had to grow. *)
Theorem filter_loop_in_place (fs : list filter) (gs : list Goroutine)
        (zero : Goroutine) :
  match run_filters fs (Parsed gs) (replicate (length gs) zero) with
  | None => applyFilters fs gs = None
  | Some (src', arr') =>
    applyFilters fs gs = Some (elements src' arr')
    /\ length arr' = length gs
    /\ ranged_len src' <= length gs
  end.
Proof.
assert (Hcap : ranged_len (Parsed gs) <= length (replicate (length gs) zero))
  by (rewrite length_replicate; reflexivity).
pose proof (run_filters_applyFilters fs _ _ Hcap) as Hrun.
destruct (run_filters fs (Parsed gs) (replicate (length gs) zero))
  as [[src' arr']|] eqn:E; [|exact Hrun].
destruct (run_filters_length _ _ _ _ _ Hcap E) as [Hl Hs].
rewrite length_replicate in Hl. split; [exact Hrun|]. split; [assumption|].
lia.
Qed.
End SliceReuseAtStart.

(** ** The classifier on families of reasons *)

Lemma lowerByte_g (c : ascii) :
  lowerByte c = "g"%char -> c = "g"%char \/ c = "G"%char.
Proof.
destruct c as [[] [] [] [] [] [] [] []]; vm_compute; intros E;
  solve [discriminate E | auto].
Qed.

(** X18. The classifier is robust to what follows a known prefix: every
    reason that starts with "sem" is [StateWaitingLock], with "chan"
    [StateWaitingChannel], with "select" [StateWaitingSelect], whatever
    comes after (the exact table never claims such a string); and every
    reason that starts with "garbage" in any mix of upper and lower case
    is [StateWaitingGCActivity]. *)
Theorem NewState_prefix_families (rest : string) :
  NewState ("sem" ++ rest) = StateWaitingLock
  /\ NewState ("chan" ++ rest) = StateWaitingChannel
  /\ NewState ("select" ++ rest) = StateWaitingSelect
  /\ (forall reason,
        String.prefix "garbage" (ToLower reason) = true ->
        NewState reason = StateWaitingGCActivity).
Proof.
split; [|split; [|split]].
- unfold NewState. simpl. destruct rest; reflexivity.
- unfold NewState. simpl. destruct rest; reflexivity.
- unfold NewState. simpl. destruct rest; reflexivity.
- intros reason Hpre. destruct reason as [|c reason]; [discriminate|].
  assert (Hc : lowerByte c = "g"%char).
  { cbn [String.prefix ToLower] in Hpre.
    destruct (ascii_dec "g" (lowerByte c)) as [E|]; [auto|discriminate]. }
  unfold NewState, HasPrefix, strWaitingGCActivity2.
  destruct (lowerByte_g c Hc) as [-> | ->];
    simpl in Hpre |- *; rewrite Hpre; reflexivity.
Qed.

(** * Closed examples

    The statements above run on the small runtime of [Toy]. *)

Lemma Toy_stable_dump : stable_dump Toy.dump.
Proof. intros w len. reflexivity. Qed.

(** C1 as stated fails: with two goroutines running and one asleep,
    "running, then exactly two" keeps the two running goroutines, while
    the same two predicates in the other order give the empty result,
    the count being taken on all three. *)
Lemma Eval_order_matters :
  let a := Condition_EQ (Condition_Is (Toy.cond 16) StateRunning) 2 in
  let b := Condition_Is (Condition_EQ (Toy.cond 16) 2) StateRunning in
  Permutation (filters a) (filters b)
  /\ buf a = buf b
  /\ (exists g1 g2,
        observe (Condition_Eval 1 a Toy.w3) = Some (([g1; g2], None), Toy.w3))
  /\ observe (Condition_Eval 1 b Toy.w3) = Some (([], None), Toy.w3).
Proof.
cbv zeta. split; [apply perm_swap|]. split; [reflexivity|].
split; [eexists _, _|]; vm_compute; reflexivity.
Qed.

Lemma Eval_reorder_witness :
  let c := Toy.cond 16 in
  let a := Condition_GT (Condition_Not (Condition_Is c StateRunning)
                                       StateSleeping) 0 in
  let b := Condition_GT (Condition_Is (Condition_Not c StateSleeping)
                                      StateRunning) 0 in
  buf a = buf b
  /\ reorder (filters a) (filters b)
  /\ (forall fuel,
        observe (Condition_Eval fuel a Toy.w3)
        = observe (Condition_Eval fuel b Toy.w3)).
Proof.
intros c a b.
assert (Hre : reorder (filters a) (filters b)).
{ apply reorder_swap. reflexivity. }
split; [reflexivity|]. split; [exact Hre|].
exact (proj1 (Eval_reorder a b Toy.w3 eq_refl) Hre).
Defined.

(** The empty buffer on the small runtime: a condition made with a buffer
    of zero bytes never returns from [Eval] or [Wait], where one made
    with a single byte returns the whole snapshot. *)
Lemma zero_buffer_never_returns :
  stable_dump Toy.dump
  /\ NewConditionWithConfig 10 0 = Returns (Toy.cond 0)
  /\ NewCondition [WithBufSize 0] = Returns (Toy.cond 0)
  /\ (forall fuel, Condition_Eval fuel (Toy.cond 0) Toy.w3 = None)
  /\ (forall fuel timeout,
        Condition_Wait fuel (Toy.cond 0) timeout Toy.w3 = None)
  /\ NewConditionWithConfig 10 1 = Returns (Toy.cond 1)
  /\ (exists gs c',
        Condition_Eval 3 (Toy.cond 1) Toy.w3 = Some ((gs, None), c', Toy.w3)
        /\ length gs = 3).
Proof.
split; [exact Toy_stable_dump|].
do 2 (split; [reflexivity|]).
split; [intros fuel; apply Eval_zero; reflexivity|].
split; [intros fuel timeout; apply Wait_zero; reflexivity|].
split; [reflexivity|].
eexists _, _; vm_compute; split; reflexivity.
Qed.

Lemma sizing_is_tuning_witness :
  stable_dump Toy.dump
  /\ exists c1 c2,
       NewConditionWithConfig 2 1 = Returns c1
       /\ NewConditionWithConfig 10 4096 = Returns c2
       /\ exists fuel0 r,
            forall fuel, fuel0 <= fuel ->
              observe (Condition_Eval fuel (Condition_Is c1 StateRunning)
                                      Toy.w3) = Some (r, Toy.w3)
              /\ observe (Condition_Eval fuel (Condition_Is c2 StateRunning)
                                         Toy.w3) = Some (r, Toy.w3).
Proof.
split; [exact Toy_stable_dump|].
destruct (sizing_is_tuning Toy.dump 2 1 10 4096
            [FilterByGo (fun g =>
               let cur := NewState (Signature_State g) in
               State_eqb StateRunning cur)]
            1000 Toy.w3 Toy_stable_dump
            ltac:(lia) ltac:(lia) ltac:(lia) ltac:(lia))
  as (c1 & c2 & H1 & H2 & _ & _ & HE & _).
exists c1, c2. split; [exact H1|]. split; [exact H2|]. exact HE.
Defined.

Lemma Eval_short_circuit_witness :
  let c := Condition_EQ (Condition_Is (Toy.cond 16) StateWaitingLock) 3 in
  rejects (FilterByGo (fun g =>
             let cur := NewState (Signature_State g) in
             State_eqb StateWaitingLock cur))
          (fst (Toy.parse_from 1 "rrz")) = true
  /\ (exists c', Condition_Eval 1 c Toy.w3 = Some (([], None), c', Toy.w3))
  /\ (forall more, exists c',
        Condition_Eval 1 (build c more) Toy.w3
        = Some (([], None), c', Toy.w3)).
Proof.
cbv zeta. split; [reflexivity|].
exact (proj2 (Eval_short_circuit
         (Condition_EQ (Condition_Is (Toy.cond 16) StateWaitingLock) 3)
         Toy.w3 [] [FilterByGoes (fun gs => (Z.of_nat (length gs) =? 3)%Z)]
         (FilterByGo (fun g =>
            let cur := NewState (Signature_State g) in
            State_eqb StateWaitingLock cur))
         1 "rrz" 16 Toy.w3 (fst (Toy.parse_from 1 "rrz"))
         (fst (Toy.parse_from 1 "rrz"))
         eq_refl eq_refl eq_refl eq_refl eq_refl)).
Defined.

Lemma Eval_no_filters_witness :
  filters (Toy.cond 1) = []
  /\ exists fuel0, forall fuel, fuel0 <= fuel ->
       exists c',
         Condition_Eval fuel (Toy.cond 1) Toy.w3
         = Some ((fst (Toy.parse_from 1 "rrz"), None), c', Toy.w3)
         /\ filters c' = [].
Proof.
split; [reflexivity|].
exact (proj2 (Eval_no_filters (Toy.cond 1) Toy.w3 eq_refl)
         Toy.dump (fst (Toy.parse_from 1 "rrz")) Toy_stable_dump
         ltac:(simpl; lia) eq_refl).
Defined.

Lemma capture_growth_rounds_witness :
  growth_rounds 11 2 = 3
  /\ exists out,
       @capture unit (Toy.fixed_runtime "0123456789") 3 2 tt = None
       /\ forall fuel, 3 < fuel ->
            @capture unit (Toy.fixed_runtime "0123456789") fuel 2 tt
            = Some (out, 16, tt).
Proof.
split; [reflexivity|].
destruct (@capture_growth_rounds unit (Toy.fixed_runtime "0123456789")
            11 2 tt ltac:(lia))
  as (_ & k & out & w' & Hk & Hreach & Hleast & _ & Hnone & Hsome & _).
- intros w len Hlen.
  change (fst (runtime_Stack w len))
    with (String.substring 0 len "0123456789").
  rewrite substring_0_length. simpl. lia.
- intros w len Hlen.
  change (fst (runtime_Stack w len))
    with (String.substring 0 len "0123456789").
  rewrite substring_0_length. simpl. lia.
- assert (Hk3 : k = 3).
  { change (growth_rounds 11 2) with 3 in Hk.
    destruct k as [|[|[|[|k]]]]; simpl in Hreach; try lia. }
  subst k. destruct w'. exists out. split; [exact Hnone|exact Hsome].
Defined.

(** ** Closed examples for the further properties *)

Lemma Eval_keeps_what_passes_witness :
  let a := Condition_Is (Toy.cond 16) StateRunning in
  exists r c',
    Condition_Eval 1 a Toy.w3 = Some ((r, None), c', Toy.w3)
    /\ length r = 2
    /\ sublist r (fst (Toy.parse_from 1 "rrz"))
    /\ forall g, In g r -> state_is StateRunning g = true.
Proof.
intros a.
assert (H : { x : list Goroutine * Condition
            | Condition_Eval 1 a Toy.w3
              = Some ((fst x, None), snd x, Toy.w3)
              /\ length (fst x) = 2 }).
{ eexists (_, _). split; reflexivity. }
destruct H as [[r c'] [H Hlen]]. simpl in H, Hlen. exists r, c'.
split; [exact H|]. split; [exact Hlen|].
destruct (Eval_keeps_what_passes 1 a Toy.w3 r c' Toy.w3 H)
  as (out & gs & Hc & Hp & Hsub & _ & Hpass).
assert (Hgs : gs = fst (Toy.parse_from 1 "rrz")).
{ injection Hc as <- _. injection Hp as <-. reflexivity. }
rewrite <- Hgs. split; [exact Hsub|].
intros g Hg. apply (Hpass g _ Hg). left. reflexivity.
Defined.

Lemma Wait_result_shape_witness :
  let a := Condition_EQ (Condition_Is (Toy.cond 2) StateWaitingLock) 3 in
  exists r c' w',
    Condition_Wait 5 a 5000 Toy.wlock = Some ((r, None), c', w')
    /\ r <> [].
Proof.
intros a.
assert (H : { x : list Goroutine * Condition * Toy.world
            | Condition_Wait 5 a 5000 Toy.wlock
              = Some ((fst (fst x), None), snd (fst x), snd x) }).
{ eexists (_, _, _). reflexivity. }
destruct H as [[[r c'] w'] H]. simpl in H. exists r, c', w'.
split; [exact H|].
exact (proj1 (Wait_result_shape 5 a 5000 Toy.wlock r None c' w' H) eq_refl).
Defined.

Lemma contradictory_filters_witness :
  let a := Condition_Not (Condition_Is (Toy.cond 16) StateRunning)
                         StateRunning in
  (In (FilterByGo (state_is StateRunning)) (filters a)
   /\ In (FilterByGo (state_not StateRunning)) (filters a))
  /\ forall fuel timeout w r e c' w',
       (Condition_Eval fuel a w = Some ((r, e), c', w') -> r = [])
       /\ (Condition_Wait fuel a timeout w = Some ((r, e), c', w') ->
           r = [] /\ e <> None).
Proof.
intros a.
assert (H : In (FilterByGo (state_is StateRunning)) (filters a)
            /\ In (FilterByGo (state_not StateRunning)) (filters a)).
{ split; [left; reflexivity|right; left; reflexivity]. }
split; [exact H|].
exact (contradictory_filters a StateRunning (or_introl H)).
Defined.

Lemma count_added_last_holds_witness :
  let a := Condition_EQ (Condition_Is (Toy.cond 16) StateRunning) 2 in
  exists r c',
    Condition_Eval 1 a Toy.w3 = Some ((r, None), c', Toy.w3)
    /\ r <> []
    /\ Z.of_nat (length r) = 2%Z.
Proof.
intros a.
assert (H : { x : list Goroutine * Condition
            | Condition_Eval 1
                (Condition_EQ (Condition_Is (Toy.cond 16) StateRunning) 2)
                Toy.w3
              = Some ((fst x, None), snd x, Toy.w3)
              /\ fst x <> [] }).
{ eexists (_, _). split; [reflexivity|discriminate]. }
destruct H as [[r c'] [H Hr]]. simpl in H, Hr. exists r, c'.
split; [exact H|]. split; [exact Hr|].
exact (proj1 (count_added_last_holds
                (Condition_Is (Toy.cond 16) StateRunning) 2
                1 0 Toy.w3 r c' Toy.w3 Hr) (or_introl H)).
Defined.

Lemma buffer_only_doubles_witness :
  exists r c',
    Condition_Eval 5 (Toy.cond 1) Toy.w3 = Some (r, c', Toy.w3)
    /\ 0 < buf c'
    /\ exists k, buf c' = buf (Toy.cond 1) * 2 ^ k.
Proof.
assert (H : { x : result * Condition
            | Condition_Eval 5 (Toy.cond 1) Toy.w3
              = Some (fst x, snd x, Toy.w3) }).
{ eexists (_, _). reflexivity. }
destruct H as [[r c'] H]. simpl in H. exists r, c'.
split; [exact H|].
exact (proj2 (proj2 (buffer_only_doubles 5 (Toy.cond 1) 0 Toy.w3 r c'
                       Toy.w3 (or_introl H)))).
Defined.

Lemma Eval_again_single_call_witness :
  stable_dump Toy.dump
  /\ exists r c',
       Condition_Eval 5 (Toy.cond 1) Toy.w3 = Some (r, c', Toy.w3)
       /\ buf c' = 4
       /\ Condition_Eval 1 c' Toy.w3 = Some (r, c', Toy.w3).
Proof.
split; [exact Toy_stable_dump|].
assert (H : { x : result * Condition
            | Condition_Eval 5 (Toy.cond 1) Toy.w3
              = Some (fst x, snd x, Toy.w3)
              /\ buf (snd x) = 4 }).
{ eexists (_, _). split; reflexivity. }
destruct H as [[r c'] [H Hb]]. simpl in H, Hb. exists r, c'.
split; [exact H|]. split; [exact Hb|].
exact (Eval_again_single_call Toy.dump 5 (Toy.cond 1) Toy.w3 r c' Toy.w3
         Toy_stable_dump H).
Defined.

Lemma Wait_reorder_witness :
  let c := Toy.cond 16 in
  let a := Condition_GT (Condition_Not (Condition_Is c StateRunning)
                                       StateSleeping) 0 in
  let b := Condition_GT (Condition_Is (Condition_Not c StateSleeping)
                                      StateRunning) 0 in
  buf a = buf b
  /\ reorder (filters a) (filters b)
  /\ observe (Condition_Wait 3 a 1000 Toy.w3)
     = observe (Condition_Wait 3 b 1000 Toy.w3).
Proof.
intros c a b.
assert (Hre : reorder (filters a) (filters b)).
{ apply reorder_swap. reflexivity. }
split; [reflexivity|]. split; [exact Hre|].
exact (Wait_reorder a b 3 1000 Toy.w3 eq_refl Hre).
Defined.

Lemma Wait_times_out_witness :
  let a := Condition_Is (Toy.cond 16) StateWaitingLock in
  stable_dump Toy.dump
  /\ exists fuel c' w',
       Condition_Wait fuel a 5000 Toy.wlate
       = Some (([], Some ErrTimeout), c', w').
Proof.
intros a. split; [exact Toy_stable_dump|].
refine (proj2 (Wait_times_out Toy.dump a 5000 Toy.wlate 1
                 Toy_stable_dump _ _ _ _)).
- simpl. lia.
- lia.
- intros [|[|n]] Hn; [reflexivity|reflexivity|lia].
- vm_compute. reflexivity.
Defined.

Lemma CreatedBy_results_match_witness :
  let made := @Condition_CreatedBy Toy.world Toy.runtime string Toy.regexp
                (Toy.cond 16) "testing" in
  exists c1 r c',
    made = Returns c1
    /\ Condition_Eval 1 c1 Toy.w3 = Some ((r, None), c', Toy.w3)
    /\ length r = 3
    /\ Forall (fun g =>
                 Contains (Signature_CreatedBy_PkgDotName g) "testing"
                 = true) r.
Proof.
intros made.
assert (H : { x : Condition * list Goroutine * Condition
            | made = Returns (fst (fst x))
              /\ Condition_Eval 1 (fst (fst x)) Toy.w3
                 = Some ((snd (fst x), None), snd x, Toy.w3)
              /\ length (snd (fst x)) = 3 }).
{ eexists (_, _, _). split; [reflexivity|]. cbn [fst snd].
  split; [lazy; reflexivity|reflexivity]. }
destruct H as [[[c1 r] c'] (Hmade & H & Hlen)]. simpl in Hmade, H, Hlen.
exists c1, r, c'. do 3 (split; [assumption|]).
exact (@CreatedBy_results_match Toy.world Toy.runtime string Toy.regexp
         (Toy.cond 16) c1 "testing" "testing" [] eq_refl Hmade
         1 0 Toy.w3 r None c' Toy.w3 (or_introl H)).
Defined.

Lemma Eval_error_ignores_filters_witness :
  let a := Toy.cond 16 in
  let b := Condition_EQ (Condition_Is (Toy.cond 16) StateWaitingLock) 7 in
  buf a = buf b
  /\ match Condition_Eval 1 a Toy.w3, Condition_Eval 1 b Toy.w3 with
     | Some ((_, e1), c1', w1), Some ((_, e2), c2', w2) =>
       e1 = e2 /\ w1 = w2 /\ buf c1' = buf c2'
     | None, None => True
     | _, _ => False
     end.
Proof.
intros a b. split; [reflexivity|].
exact (Eval_error_ignores_filters a b 1 Toy.w3 eq_refl).
Defined.

Lemma Wait_forever_witness :
  let quiet := {| Toy.clock := 0; Toy.tick := 1; Toy.dumps := [] |} in
  let a := Condition_GT (Toy.cond 16) 0 in
  stable_dump Toy.dump
  /\ forall fuel, Condition_Wait fuel a 0 quiet = None.
Proof.
intros quiet a. split; [exact Toy_stable_dump|].
refine (Wait_forever Toy.dump a 0 quiet Toy_stable_dump _ _ _).
- lia.
- simpl. lia.
- intros n.
  assert (Hquiet : forall m w,
            Toy.dumps w = [] ->
            Toy.dump (Nat.iter m runtime_Gosched w) = ""%string).
  { induction m as [|m IH]; intros w Hw.
    - change (Toy.dump w = ""%string). unfold Toy.dump. rewrite Hw.
      reflexivity.
    - rewrite Nat.iter_succ_r. apply IH.
      change (tl (Toy.dumps w) = []). rewrite Hw. reflexivity. }
  change (snd (time_Now quiet)) with quiet.
  rewrite (Hquiet n quiet eq_refl). reflexivity.
Defined.
